(** * Perun::FifoQueue: a bounded FIFO message queue guarded by one mutex

    Shallow embedding of [src/fifo_queue.hpp].  Every member function of
    [FifoQueue<T>] runs under [_lock]; the unit of execution is therefore the
    critical section: from taking the lock (on entry, or when a
    [condition_variable::wait] returns) to releasing it (on return, or when
    the thread goes to sleep in the next [wait]).  Each critical section is a
    pure function of the queue; the notifications sent on the two condition
    variables are returned next to the result. *)

From Stdlib Require Import ZArith List Bool Lia.
From stdpp Require Import base option list gmap.
Import ListNotations.

Local Open Scope Z_scope.

(** ** Integer conversions of the source *)

Definition INT64_MAX : Z := 2 ^ 63 - 1.
Definition INT64_MIN : Z := - 2 ^ 63.

(** The values an [int64_t] can hold. *)
Definition int64_range (z : Z) : Prop := INT64_MIN <= z <= INT64_MAX.

(** [int64_t] to [size_t]: the conversion applied to [max_size] in
    [_storage.size() >= max_size], where the unsigned operand wins. *)
Definition to_uint64 (z : Z) : Z := z mod 2 ^ 64.

(** [size_t] to [int64_t]: the conversion applied by [return _storage.size()]
    in [size()]. *)
Definition to_int64 (z : Z) : Z := (z + 2 ^ 63) mod 2 ^ 64 - 2 ^ 63.

(** ** [enum class FifoError] *)

Module FifoError.
Inductive t : Set :=
| OK
| Destroyed
| Full
| Empty
| NotFound
| Timeouted.
End FifoError.

(** ** Condition variables and the notifications sent on them *)

(** The two members [_c_pop_blocking_on] (consumers sleep here until the
    queue is not empty) and [_c_push_blockin_on] (producers sleep here until
    the queue is not full). *)
Inductive CondVar : Set :=
| _c_pop_blocking_on
| _c_push_blockin_on.

Inductive Notify : Set :=
| notify_one (c : CondVar)
| notify_all (c : CondVar).

(** [std::cv_status], the result of [wait_until]. *)
Inductive cv_status : Set :=
| no_timeout
| timeout.

(** ** [std::deque<T>] as a list: the front of the deque is the head *)

Section Deque.
Context {T : Type}.

Definition deque_size (d : list T) : Z := Z.of_nat (length d).

Definition deque_empty (d : list T) : bool :=
  match d with [] => true | _ :: _ => false end.

Definition push_back (d : list T) (value : T) : list T := d ++ [value].

Definition front (d : list T) : option T := head d.

Definition pop_front (d : list T) : list T := tail d.

(** [std::erase_if(d, f)]: every element satisfying [f] is erased, the
    others keep their order. *)
Definition deque_erase_if (f : T -> bool) (d : list T) : list T :=
  List.filter (fun x => negb (f x)) d.

(** The loop of [get]: walk from [begin()] to [end()]; at the first
    element satisfying [f], move it out and erase it there.  [None] when
    the iterator reaches [end()]. *)
Fixpoint find_erase (f : T -> bool) (d : list T) : option (T * list T) :=
  match d with
  | [] => None
  | x :: d' =>
      if f x then Some (x, d')
      else match find_erase f d' with
           | Some (y, r) => Some (y, x :: r)
           | None => None
           end
  end.
End Deque.

(** ** The queue *)

Section Queue.
Context {T : Type}.

(** The data members of [FifoQueue<T>] that the mutex protects, and the
    constant [max_size]. *)
Record FifoQueue : Type := mkFifoQueue {
  max_size : Z;
  _storage : list T;
  _is_valid : bool
}.

Definition set_storage (q : FifoQueue) (d : list T) : FifoQueue :=
  mkFifoQueue (max_size q) d (_is_valid q).

(** The constructor: [max_size] is stored as given, [_storage] starts
    empty and [_is_valid] starts [true].  There is no check of the
    argument. *)
Definition FifoQueue_new (max_size : Z) : FifoQueue :=
  mkFifoQueue max_size [] true.

(** The default argument of the constructor. *)
Definition FifoQueue_default : FifoQueue := FifoQueue_new INT64_MAX.

(** The test [_storage.size() >= max_size]. *)
Definition is_full (q : FifoQueue) : bool :=
  to_uint64 (max_size q) <=? deque_size (_storage q).

(** What a critical section of a call returning [A] ends with: the call
    returns, or the thread sleeps on a condition variable. *)
Inductive Section_end (A : Type) : Type :=
| Returned (result : A)
| Blocked (c : CondVar).
Global Arguments Returned {A} result.
Global Arguments Blocked {A} c.

(** The result of the calls returning [FifoError] with an out-parameter
    [T& value]: [None] when the call did not assign it. *)
Definition Popped : Type := FifoError.t * option T.

(** *** Non-blocking producer *)

Definition try_push (q : FifoQueue) (value : T)
  : FifoError.t * FifoQueue * list Notify :=
  if negb (_is_valid q) then (FifoError.Destroyed, q, [])
  else if is_full q then (FifoError.Full, q, [])
  else (FifoError.OK, set_storage q (push_back (_storage q) value),
        [notify_one _c_pop_blocking_on]).

(** *** Blocking producer *)

(** The [while(_storage.size() >= max_size)] loop, from its test. *)
Definition push_while (q : FifoQueue) (value : T)
  : Section_end FifoError.t * FifoQueue * list Notify :=
  if is_full q then (Blocked _c_push_blockin_on, q, [])
  else (Returned FifoError.OK, set_storage q (push_back (_storage q) value),
        [notify_one _c_pop_blocking_on]).

(** Entry of [push]. *)
Definition push (q : FifoQueue) (value : T)
  : Section_end FifoError.t * FifoQueue * list Notify :=
  if negb (_is_valid q) then (Returned FifoError.Destroyed, q, [])
  else push_while q value.

(** [_c_push_blockin_on.wait(guard)] has returned inside [push]. *)
Definition push_resume (q : FifoQueue) (value : T)
  : Section_end FifoError.t * FifoQueue * list Notify :=
  if negb (_is_valid q) then (Returned FifoError.Destroyed, q, [])
  else push_while q value.

(** *** Non-blocking consumer *)

Definition try_pop (q : FifoQueue) : Popped * FifoQueue * list Notify :=
  if negb (_is_valid q) then ((FifoError.Destroyed, None), q, [])
  else if deque_empty (_storage q) then ((FifoError.Empty, None), q, [])
  else ((FifoError.OK, front (_storage q)),
        set_storage q (pop_front (_storage q)),
        [notify_one _c_push_blockin_on]).

(** *** Blocking consumer *)

(** The code after the [while(_storage.empty())] loop of both [pop]s. *)
Definition pop_after_while (q : FifoQueue)
  : Section_end Popped * FifoQueue * list Notify :=
  if negb (_is_valid q) then (Returned (FifoError.Destroyed, None), q, [])
  else (Returned (FifoError.OK, front (_storage q)),
        set_storage q (pop_front (_storage q)),
        [notify_one _c_push_blockin_on]).

(** [pop(T&)], from the test of its loop: entry of the call, and also
    where [_c_pop_blocking_on.wait(guard)] returns to. *)
Definition pop (q : FifoQueue)
  : Section_end Popped * FifoQueue * list Notify :=
  if deque_empty (_storage q) then
    if negb (_is_valid q) then (Returned (FifoError.Destroyed, None), q, [])
    else (Blocked _c_pop_blocking_on, q, [])
  else pop_after_while q.

Definition pop_resume (q : FifoQueue)
  : Section_end Popped * FifoQueue * list Notify :=
  pop q.

(** [pop(T&, timeout)], from the test of its loop: the same loop, sleeping
    in [wait_until(guard, deadline)]. *)
Definition pop_timeout (q : FifoQueue)
  : Section_end Popped * FifoQueue * list Notify :=
  if deque_empty (_storage q) then
    if negb (_is_valid q) then (Returned (FifoError.Destroyed, None), q, [])
    else (Blocked _c_pop_blocking_on, q, [])
  else pop_after_while q.

(** [wait_until] has returned with status [st]. *)
Definition pop_timeout_resume (q : FifoQueue) (st : cv_status)
  : Section_end Popped * FifoQueue * list Notify :=
  match st with
  | timeout => (Returned (FifoError.Timeouted, None), q, [])
  | no_timeout => pop_timeout q
  end.

(** *** Lifecycle and inspection *)

Definition close (q : FifoQueue) : FifoQueue * list Notify :=
  (mkFifoQueue (max_size q) (_storage q) false,
   [notify_all _c_pop_blocking_on; notify_all _c_push_blockin_on]).

Definition running (q : FifoQueue) : bool := _is_valid q.

Definition size (q : FifoQueue) : Z := to_int64 (deque_size (_storage q)).

(** *** Predicate-driven removal *)

Definition erase_if (q : FifoQueue) (f : T -> bool)
  : FifoQueue * list Notify :=
  (set_storage q (deque_erase_if f (_storage q)), []).

Definition get (q : FifoQueue) (f : T -> bool)
  : Popped * FifoQueue * list Notify :=
  if negb (_is_valid q) then ((FifoError.Destroyed, None), q, [])
  else match find_erase f (_storage q) with
       | Some (x, d) => ((FifoError.OK, Some x), set_storage q d, [])
       | None => ((FifoError.NotFound, None), q, [])
       end.
End Queue.

Global Arguments FifoQueue T : clear implicits.

(** ** Threads calling into one queue

    A thread is either outside the queue or asleep in the [wait] of a
    blocking call.  A step of the system is one critical section: a thread
    outside the queue invokes a member function, or the [wait] of a sleeping
    thread returns (after a notification, spuriously, or for [wait_until] at
    the deadline) and the call goes on from there.  The mutex makes the
    critical sections atomic, so a schedule of such steps is an execution of
    the program. *)

Section System.
Context {T : Type}.

Inductive Call : Type :=
| call_try_push (value : T)
| call_push (value : T)
| call_try_pop
| call_pop
| call_pop_timeout
| call_close
| call_running
| call_erase_if (f : T -> bool)
| call_size
| call_get (f : T -> bool).

(** What the caller sees at the end of a critical section. *)
Inductive Response : Type :=
| ret_error (e : FifoError.t) (value : option T)
| ret_void
| ret_bool (b : bool)
| ret_int64 (n : Z)
| sleeps (c : CondVar).

Definition push_response (r : Section_end FifoError.t) : Response :=
  match r with
  | Returned e => ret_error e None
  | Blocked c => sleeps c
  end.

Definition pop_response (r : Section_end (@Popped T)) : Response :=
  match r with
  | Returned (e, value) => ret_error e value
  | Blocked c => sleeps c
  end.

(** A thread outside the queue calls a member function. *)
Definition enter (q : FifoQueue T) (c : Call)
  : Response * FifoQueue T * list Notify :=
  match c with
  | call_try_push value =>
      let '(e, q', sig) := try_push q value in (ret_error e None, q', sig)
  | call_push value =>
      let '(r, q', sig) := push q value in (push_response r, q', sig)
  | call_try_pop =>
      let '((e, value), q', sig) := try_pop q in (ret_error e value, q', sig)
  | call_pop =>
      let '(r, q', sig) := pop q in (pop_response r, q', sig)
  | call_pop_timeout =>
      let '(r, q', sig) := pop_timeout q in (pop_response r, q', sig)
  | call_close =>
      let '(q', sig) := close q in (ret_void, q', sig)
  | call_running => (ret_bool (running q), q, [])
  | call_erase_if f =>
      let '(q', sig) := erase_if q f in (ret_void, q', sig)
  | call_size => (ret_int64 (size q), q, [])
  | call_get f =>
      let '((e, value), q', sig) := get q f in (ret_error e value, q', sig)
  end.

(** The [wait] of a thread asleep in call [c] returns.  Only [push] and the
    two [pop]s sleep, and only [wait_until] reports a timeout. *)
Definition resume (q : FifoQueue T) (c : Call) (st : cv_status)
  : option (Response * FifoQueue T * list Notify) :=
  match c, st with
  | call_push value, no_timeout =>
      let '(r, q', sig) := push_resume q value in
      Some (push_response r, q', sig)
  | call_pop, no_timeout =>
      let '(r, q', sig) := pop_resume q in Some (pop_response r, q', sig)
  | call_pop_timeout, st =>
      let '(r, q', sig) := pop_timeout_resume q st in
      Some (pop_response r, q', sig)
  | _, _ => None
  end.

Inductive Action : Type :=
| Invoke (c : Call)
| Wakeup (st : cv_status).

Record Event : Type := mkEvent {
  ev_thread : nat;
  ev_call : Call;
  ev_response : Response;
  ev_signals : list Notify
}.

(** The queue and, for every sleeping thread, the call it sleeps in. *)
Record System : Type := mkSystem {
  queue : FifoQueue T;
  sleeping : gmap nat Call
}.

Definition finish (s : System) (t : nat) (c : Call)
    (out : Response * FifoQueue T * list Notify) : System * Event :=
  let '(r, q', sig) := out in
  (mkSystem q'
     match r with
     | sleeps _ => <[t := c]> (sleeping s)
     | _ => delete t (sleeping s)
     end,
   mkEvent t c r sig).

(** One critical section of thread [t]; [None] when [t] cannot do [a]. *)
Definition exec (s : System) (t : nat) (a : Action) : option (System * Event) :=
  match a, sleeping s !! t with
  | Invoke c, None => Some (finish s t c (enter (queue s) c))
  | Wakeup st, Some c =>
      match resume (queue s) c st with
      | Some out => Some (finish s t c out)
      | None => None
      end
  | _, _ => None
  end.

Fixpoint run (s : System) (sched : list (nat * Action))
  : option (System * list Event) :=
  match sched with
  | [] => Some (s, [])
  | (t, a) :: sched' =>
      match exec s t a with
      | Some (s', ev) =>
          match run s' sched' with
          | Some (s'', evs) => Some (s'', ev :: evs)
          | None => None
          end
      | None => None
      end
  end.

(** A freshly constructed queue, no thread inside. *)
Definition boot (max_size : Z) : System := mkSystem (FifoQueue_new max_size) ∅.

(** The values appended by the successful [push]es and [try_push]es of a
    trace, in the order of their critical sections. *)
Definition pushed_value (ev : Event) : list T :=
  match ev_call ev, ev_response ev with
  | call_push value, ret_error FifoError.OK _ => [value]
  | call_try_push value, ret_error FifoError.OK _ => [value]
  | _, _ => []
  end.

(** The values handed out by the successful [pop]s and [try_pop]s. *)
Definition popped_value (ev : Event) : list T :=
  match ev_call ev, ev_response ev with
  | (call_pop | call_try_pop | call_pop_timeout),
    ret_error FifoError.OK (Some value) => [value]
  | _, _ => []
  end.

Definition pushed (evs : list Event) : list T := concat (map pushed_value evs).
Definition popped (evs : list Event) : list T := concat (map popped_value evs).

(** Calls that take elements out of the middle of the queue. *)
Definition is_selective (c : Call) : bool :=
  match c with
  | call_get _ | call_erase_if _ => true
  | _ => false
  end.

Definition action_selective (a : nat * Action) : bool :=
  match snd a with
  | Invoke c => is_selective c
  | Wakeup _ => false
  end.
End System.

Global Arguments Call T : clear implicits.
Global Arguments Response T : clear implicits.
Global Arguments Action T : clear implicits.
Global Arguments Event T : clear implicits.
Global Arguments System T : clear implicits.

(** ** Properties of queues and events *)

Section Properties.
Context {T : Type}.

(** The storage holds no more than the capacity as the test of [push] and
    [try_push] reads it. *)
Definition within_capacity (q : FifoQueue T) : Prop :=
  deque_size (_storage q) <= to_uint64 (max_size q).

(** The invariant of a queue of capacity [cap]. *)
Definition bounded_by (cap : Z) (q : FifoQueue T) : Prop :=
  max_size q = cap /\ 0 <= deque_size (_storage q) <= cap.

(** An answer of [size()] is between 0 and [cap]. *)
Definition size_in_bounds (cap : Z) (ev : Event T) : Prop :=
  forall n, ev_response ev = ret_int64 n -> 0 <= n <= cap.

(** An answer of [running()] is [false]. *)
Definition reports_closed (ev : Event T) : Prop :=
  forall b, ev_response ev = ret_bool b -> b = false.

(** A thread pushing the values [vs] one after the other, and popping [n]
    times. *)
Definition pushes (t : nat) (vs : list T) : list (nat * Action T) :=
  map (fun v => (t, Invoke (call_push v))) vs.

Definition pops (t : nat) (n : nat) : list (nat * Action T) :=
  repeat (t, Invoke call_pop) n.
End Properties.

(** The notifications the source sends at the end of a critical section,
    read off the call and its answer: one consumer after an append, one
    producer after [pop], [try_pop] or the timed [pop] took an element,
    both broadcasts after [close], nothing otherwise. *)
Definition expected_signals {T : Type} (ev : Event T) : list Notify :=
  match ev_call ev, ev_response ev with
  | (call_push _ | call_try_push _), ret_error FifoError.OK _ =>
      [notify_one _c_pop_blocking_on]
  | (call_pop | call_try_pop | call_pop_timeout), ret_error FifoError.OK _ =>
      [notify_one _c_push_blockin_on]
  | call_close, _ =>
      [notify_all _c_pop_blocking_on; notify_all _c_push_blockin_on]
  | _, _ => []
  end.

(** ** Calls, answers and deliveries *)

Section Answers.
Context {T : Type}.

(** The calls with a [wait] in their body. *)
Definition is_blocking (c : Call T) : bool :=
  match c with
  | call_push _ | call_pop | call_pop_timeout => true
  | _ => false
  end.

(** The answers a call can give, read off its [return] statements and its
    [wait]s: the statuses of each member function, the out-parameter
    assigned together with [OK] and only then, and the condition variable
    each blocking call sleeps on. *)
Definition answers_as_declared (c : Call T) (r : Response T) : bool :=
  match c, r with
  | call_try_push _,
    ret_error (FifoError.OK | FifoError.Destroyed | FifoError.Full) None => true
  | call_push _, ret_error (FifoError.OK | FifoError.Destroyed) None => true
  | call_push _, sleeps _c_push_blockin_on => true
  | call_try_pop, ret_error FifoError.OK (Some _) => true
  | call_try_pop, ret_error (FifoError.Destroyed | FifoError.Empty) None => true
  | call_pop, ret_error FifoError.OK (Some _) => true
  | call_pop, ret_error FifoError.Destroyed None => true
  | call_pop, sleeps _c_pop_blocking_on => true
  | call_pop_timeout, ret_error FifoError.OK (Some _) => true
  | call_pop_timeout,
    ret_error (FifoError.Destroyed | FifoError.Timeouted) None => true
  | call_pop_timeout, sleeps _c_pop_blocking_on => true
  | call_close, ret_void => true
  | call_running, ret_bool _ => true
  | call_erase_if _, ret_void => true
  | call_size, ret_int64 _ => true
  | call_get _, ret_error FifoError.OK (Some _) => true
  | call_get _, ret_error (FifoError.Destroyed | FifoError.NotFound) None => true
  | _, _ => false
  end.

(** The values handed to callers through the out-parameter of a successful
    [pop], [try_pop], timed [pop] or [get]. *)
Definition delivered_value (ev : Event T) : list T :=
  match ev_call ev, ev_response ev with
  | (call_pop | call_try_pop | call_pop_timeout | call_get _),
    ret_error FifoError.OK (Some value) => [value]
  | _, _ => []
  end.

Definition delivered (evs : list (Event T)) : list T :=
  concat (map delivered_value evs).

(** Calls to [erase_if], alone and in a schedule. *)
Definition is_erase_if (c : Call T) : bool :=
  match c with
  | call_erase_if _ => true
  | _ => false
  end.

Definition action_erases (a : nat * Action T) : bool :=
  match snd a with
  | Invoke c => is_erase_if c
  | Wakeup _ => false
  end.

(** Every sleeping thread sleeps in a blocking call. *)
Definition sleepers_blocking (s : System T) : Prop :=
  forall t c, sleeping s !! t = Some c -> is_blocking c = true.
End Answers.

(** ** Scenarios of [src/test.cpp], with [int] elements *)

(** The scenario of the test case "[fifo] close": a queue of capacity 2 is
    filled by thread 0, thread 1 blocks in [push(9)], the queue is closed,
    thread 1 wakes up, and the main thread calls [pop]. *)
Definition close_test : list (nat * Action Z) :=
  [(0%nat, Invoke (call_push 1)); (0%nat, Invoke (call_push 2));
   (1%nat, Invoke (call_push 9)); (0%nat, Invoke call_close);
   (1%nat, Wakeup no_timeout); (0%nat, Invoke call_pop)].

(** The scenario of the test case "[fifo] non-blocking push", followed by
    [size()]. *)
Definition full_test : list (nat * Action Z) :=
  [(0%nat, Invoke (call_push 1)); (0%nat, Invoke (call_push 2));
   (0%nat, Invoke (call_try_push 3)); (0%nat, Invoke call_size)].

(** Attempts to use a closed queue: none of them opens it again. *)
Definition after_close_test : list (nat * Action Z) :=
  [(0%nat, Invoke call_running); (0%nat, Invoke (call_push 3));
   (0%nat, Invoke (call_try_push 4)); (0%nat, Invoke call_try_pop);
   (0%nat, Invoke call_close); (0%nat, Invoke call_running)].

(** The scenario of the test case "[fifo] get" on a default-constructed
    queue, with [size()] called before and after as the test does. *)
Definition get_test : list (nat * Action Z) :=
  [(0%nat, Invoke (call_push 1)); (0%nat, Invoke (call_push 2));
   (0%nat, Invoke (call_push 3)); (0%nat, Invoke (call_push 4));
   (0%nat, Invoke (call_push 5)); (0%nat, Invoke call_size);
   (0%nat, Invoke (call_get (Z.eqb 3))); (0%nat, Invoke call_size)].

(** The scenario of the test case "[fifo] blocking push": the queue of
    capacity 2 is full, thread 1 blocks in [push(7)], thread 0 pops, and
    thread 1 wakes up and appends. *)
Definition blocking_push_test : list (nat * Action Z) :=
  [(0%nat, Invoke (call_push 1)); (0%nat, Invoke (call_push 2));
   (1%nat, Invoke (call_push 7)); (0%nat, Invoke call_pop);
   (1%nat, Wakeup no_timeout)].

(** The queue of capacity 2 is full and thread 1 is asleep in [push(7)];
    then thread 0 takes the element 1 out, by [get], by [try_pop] or by
    [erase_if]. *)
Definition full_with_sleeper (removal : Call Z) : list (nat * Action Z) :=
  [(0%nat, Invoke (call_push 1)); (0%nat, Invoke (call_push 2));
   (1%nat, Invoke (call_push 7)); (0%nat, Invoke removal)].

(** What the last critical section answered and notified, the storage it
    left and the call thread 1 sleeps in. *)
Definition last_step (r : option (System Z * list (Event Z)))
  : option (Response Z * list Notify * list Z * option (Call Z)) :=
  match r with
  | Some (s, evs) =>
      match last evs with
      | Some ev => Some (ev_response ev, ev_signals ev, _storage (queue s),
                         sleeping s !! 1%nat)
      | None => None
      end
  | None => None
  end.

(** The scenario of the test case "[fifo] blocking pop with timeout". *)
Definition timeout_test : list (nat * Action Z) :=
  [(0%nat, Invoke call_pop_timeout); (0%nat, Wakeup timeout)].

(** The queue of capacity 1 is filled, thread 1 goes to sleep in
    [push(9)], thread 2 finds the queue full, and the queue is closed. *)
Definition close_with_sleeper : list (nat * Action Z) :=
  [(0%nat, Invoke (call_push 1)); (1%nat, Invoke (call_push 9));
   (2%nat, Invoke (call_try_push 5)); (0%nat, Invoke call_close)].

(** ** Integer conversions *)

Lemma to_uint64_small (z : Z) : 0 <= z < 2 ^ 64 -> to_uint64 z = z.
Proof. intros Hz. unfold to_uint64. now apply Z.mod_small. Qed.

Lemma to_uint64_le (z : Z) : 0 <= z -> to_uint64 z <= z.
Proof. intros Hz. unfold to_uint64. apply Z.mod_le; lia. Qed.

Lemma to_int64_small (z : Z) : int64_range z -> to_int64 z = z.
Proof.
  unfold int64_range, INT64_MIN, INT64_MAX, to_int64. intros Hz.
  rewrite Z.mod_small; lia.
Qed.

(** ** The deque operations *)

Section DequeFacts.
Context {T : Type}.
Implicit Types (d : list T) (f : T -> bool).

Lemma deque_size_nonneg d : 0 <= deque_size d.
Proof. unfold deque_size. lia. Qed.

Lemma deque_size_push_back d v : deque_size (push_back d v) = deque_size d + 1.
Proof. unfold deque_size, push_back. rewrite length_app. simpl. lia. Qed.

Lemma deque_size_pop_front d : deque_size (pop_front d) <= deque_size d.
Proof. unfold deque_size, pop_front. destruct d; simpl; lia. Qed.

Lemma deque_size_erase_if f d : deque_size (deque_erase_if f d) <= deque_size d.
Proof.
  unfold deque_size, deque_erase_if.
  pose proof (List.filter_length_le (fun x => negb (f x)) d). lia.
Qed.

Lemma find_erase_size f d x r :
  find_erase f d = Some (x, r) -> deque_size d = deque_size r + 1.
Proof.
  unfold deque_size. revert x r.
  induction d as [|y d IH]; intros x r; simpl; [discriminate|].
  destruct (f y).
  - intros [= <- <-]. lia.
  - destruct (find_erase f d) as [[z r']|] eqn:E; [|discriminate].
    intros [= <- <-]. specialize (IH _ _ eq_refl). simpl. lia.
Qed.

(** [find_erase] takes out the first element satisfying [f] and nothing
    else. *)
Lemma find_erase_Some f d x r :
  find_erase f d = Some (x, r) <->
  exists d1 d2, d = d1 ++ x :: d2 /\ r = d1 ++ d2 /\
                f x = true /\ Forall (fun y => f y = false) d1.
Proof.
  revert x r. induction d as [|y d IH]; intros x r; simpl.
  - split; [discriminate|].
    intros (d1 & d2 & H & _). destruct d1; discriminate.
  - destruct (f y) eqn:Hy.
    + split.
      * intros [= <- <-]. exists [], d. repeat split; auto.
      * intros (d1 & d2 & Hd & -> & Hx & Hall).
        destruct d1 as [|z d1]; simpl in *.
        -- now inversion Hd; subst.
        -- inversion Hd; subst. inversion Hall; subst. congruence.
    + destruct (find_erase f d) as [[z r']|] eqn:E.
      * split.
        -- intros [= <- <-].
           destruct (proj1 (IH z r') eq_refl) as (d1 & d2 & -> & -> & Hz & Hall).
           exists (y :: d1), d2. repeat split; auto.
        -- intros (d1 & d2 & Hd & -> & Hx & Hall).
           destruct d1 as [|w d1]; simpl in *.
           ++ inversion Hd; subst. congruence.
           ++ inversion Hd; subst. inversion Hall; subst.
              assert (Some (z, r') = Some (x, d1 ++ d2)) as [= -> ->]; [|done].
              apply IH. exists d1, d2. repeat split; auto.
      * split; [discriminate|].
        intros (d1 & d2 & Hd & -> & Hx & Hall).
        destruct d1 as [|w d1]; simpl in *.
        -- inversion Hd; subst. congruence.
        -- inversion Hd; subst. inversion Hall; subst.
           assert (None = Some (x, d1 ++ d2)) as [=].
           apply IH. exists d1, d2. repeat split; auto.
Qed.

Lemma find_erase_None f d :
  find_erase f d = None <-> Forall (fun y => f y = false) d.
Proof.
  induction d as [|y d IH]; simpl.
  - split; auto.
  - destruct (f y) eqn:Hy.
    + split; [discriminate|]. intros H. inversion H; subst. congruence.
    + destruct (find_erase f d) as [[z r']|] eqn:E.
      * split; [discriminate|]. intros H. inversion H; subst.
        now apply IH in H3.
      * split; auto. intros _. constructor; auto. now apply IH.
Qed.
End DequeFacts.

(** ** Critical sections, one at a time *)

(** Unfolds the member functions and splits on the tests they make. *)
Ltac crit :=
  unfold enter, resume, try_push, push, push_resume, push_while, try_pop,
    pop_resume, pop_timeout_resume, pop_timeout, pop, pop_after_while,
    close, running, size, erase_if, get, set_storage;
  repeat match goal with
    | |- context [negb (_is_valid ?q)] => destruct (_is_valid q) eqn:?
    | |- context [is_full ?q] => destruct (is_full q) eqn:?
    | |- context [deque_empty ?d] => destruct (deque_empty d) eqn:?
    | |- context [find_erase ?f ?d] =>
        destruct (find_erase f d) as [[? ?]|] eqn:?
    end;
  cbn [negb fst snd max_size _storage _is_valid].

Section SectionFacts.
Context {T : Type}.
Implicit Types (q : FifoQueue T) (c : Call T) (s : System T).

(** The capacity is a constant. *)
Lemma enter_max_size q c : max_size (enter q c).1.2 = max_size q.
Proof. destruct c; crit; reflexivity. Qed.

Lemma resume_max_size q c st out :
  resume q c st = Some out -> max_size out.1.2 = max_size q.
Proof.
  destruct c, st; crit; intros [= <-]; reflexivity.
Qed.

(** No critical section sets [_is_valid]. *)
Lemma enter_closed q c : _is_valid q = false -> _is_valid (enter q c).1.2 = false.
Proof. intros Hq. destruct c; crit; congruence. Qed.

Lemma resume_closed q c st out :
  resume q c st = Some out -> _is_valid q = false -> _is_valid out.1.2 = false.
Proof.
  intros Hr Hq. revert Hr.
  destruct c, st; crit; intros [= <-]; simpl; congruence.
Qed.

Lemma is_full_false q :
  is_full q = false -> deque_size (_storage q) < to_uint64 (max_size q).
Proof. unfold is_full. intros H. apply Z.leb_gt in H. exact H. Qed.

Lemma enter_within_capacity q c :
  within_capacity q -> within_capacity (enter q c).1.2.
Proof.
  unfold within_capacity. intros Hq.
  destruct c; crit; simpl; try assumption;
    repeat match goal with
      | H : is_full _ = false |- _ => apply is_full_false in H
      | H : find_erase _ _ = Some _ |- _ => apply find_erase_size in H
      end;
    rewrite ?deque_size_push_back;
    try pose proof (deque_size_pop_front (_storage q));
    try pose proof (deque_size_erase_if f (_storage q));
    lia.
Qed.

Lemma resume_within_capacity q c st out :
  resume q c st = Some out -> within_capacity q -> within_capacity out.1.2.
Proof.
  unfold within_capacity. intros Hr Hq. revert Hr.
  destruct c, st; crit; intros [= <-]; simpl; try assumption;
    repeat match goal with
      | H : is_full _ = false |- _ => apply is_full_false in H
      end;
    rewrite ?deque_size_push_back;
    try pose proof (deque_size_pop_front (_storage q));
    lia.
Qed.

(** *** Executions *)

(** What one step is made of: the critical section [out] of a call [c],
    entered or resumed, reported as the event of thread [t]. *)
Lemma exec_inv s t a s' ev :
  exec s t a = Some (s', ev) ->
  exists c out,
    (a = Invoke c /\ out = enter (queue s) c \/
     exists st, a = Wakeup st /\ resume (queue s) c st = Some out) /\
    ev = mkEvent t c out.1.1 out.2 /\ queue s' = out.1.2.
Proof.
  unfold exec. destruct a as [c|st], (sleeping s !! t) as [c'|]; try discriminate.
  - intros H. exists c, (enter (queue s) c). split; [left; eauto|].
    destruct (enter (queue s) c) as [[r q'] sig]. simpl in *.
    injection H as <- <-. split; reflexivity.
  - destruct (resume (queue s) c' st) as [out|] eqn:E; [|discriminate].
    intros H. exists c', out. split; [right; eauto|].
    destruct out as [[r q'] sig]. simpl in *.
    injection H as <- <-. split; reflexivity.
Qed.

Lemma exec_queue s t a s' ev :
  exec s t a = Some (s', ev) ->
  (exists c, queue s' = (enter (queue s) c).1.2) \/
  (exists c st out, resume (queue s) c st = Some out /\ queue s' = out.1.2).
Proof.
  intros E. apply exec_inv in E as (c & out & [[_ ->]|(st & _ & Hr)] & _ & Hq).
  - left. exists c. exact Hq.
  - right. exists c, st, out. split; assumption.
Qed.

(** A property of the queue kept by every critical section is kept by
    every execution. *)
Lemma run_invariant (P : FifoQueue T -> Prop) :
  (forall q c, P q -> P (enter q c).1.2) ->
  (forall q c st out, resume q c st = Some out -> P q -> P out.1.2) ->
  forall sched s s' evs,
    run s sched = Some (s', evs) -> P (queue s) -> P (queue s').
Proof.
  intros Henter Hresume sched.
  induction sched as [|[t a] sched IH]; intros s s' evs; simpl.
  - intros [= <- <-]. auto.
  - destruct (exec s t a) as [[s1 ev]|] eqn:E; [|discriminate].
    destruct (run s1 sched) as [[s2 evs']|] eqn:R; [|discriminate].
    intros [= <- <-] HP. apply (IH _ _ _ R).
    destruct (exec_queue _ _ _ _ _ E) as [[c ->]|(c & st & out & Hr & ->)]; eauto.
Qed.

Lemma run_max_size sched s s' evs :
  run s sched = Some (s', evs) -> max_size (queue s') = max_size (queue s).
Proof.
  intros R.
  apply (run_invariant (fun q => max_size q = max_size (queue s))) in R; auto.
  - intros q c <-. apply enter_max_size.
  - intros q c st out Hr <-. eapply resume_max_size, Hr.
Qed.

Lemma run_closed sched s s' evs :
  run s sched = Some (s', evs) ->
  _is_valid (queue s) = false -> _is_valid (queue s') = false.
Proof.
  apply (run_invariant (fun q => _is_valid q = false)).
  - intros q c. apply enter_closed.
  - intros q c st out. apply resume_closed.
Qed.

Lemma run_within_capacity sched s s' evs :
  run s sched = Some (s', evs) ->
  within_capacity (queue s) -> within_capacity (queue s').
Proof.
  apply (run_invariant within_capacity).
  - intros q c. apply enter_within_capacity.
  - intros q c st out. apply resume_within_capacity.
Qed.

Lemma run_app sched1 sched2 s s1 evs1 :
  run s sched1 = Some (s1, evs1) ->
  run s (sched1 ++ sched2) =
    match run s1 sched2 with
    | Some (s2, evs2) => Some (s2, evs1 ++ evs2)
    | None => None
    end.
Proof.
  revert s s1 evs1.
  induction sched1 as [|[t a] sched1 IH]; intros s s1 evs1; simpl.
  - intros [= <- <-]. destruct (run s sched2) as [[? ?]|]; reflexivity.
  - destruct (exec s t a) as [[s' ev]|]; [|discriminate].
    destruct (run s' sched1) as [[s'' evs']|] eqn:R; [|discriminate].
    intros [= <- <-]. rewrite (IH _ _ _ R).
    destruct (run s'' sched2) as [[? ?]|]; reflexivity.
Qed.
End SectionFacts.

(** ** The member functions, case by case *)

Section Members.
Context {T : Type}.
Implicit Types (q : FifoQueue T) (f : T -> bool) (d : list T).

(** A queue holding exactly [max_size] elements is full for the unsigned
    test of the source. *)
Lemma at_capacity_is_full q :
  deque_size (_storage q) = max_size q -> is_full q = true.
Proof.
  intros H. unfold is_full. apply Z.leb_le.
  pose proof (deque_size_nonneg (_storage q)).
  pose proof (to_uint64_le (max_size q)). lia.
Qed.

Lemma pop_closed q :
  _is_valid q = false -> pop q = (Returned (FifoError.Destroyed, None), q, []).
Proof. intros H. crit; try reflexivity; congruence. Qed.

Lemma try_pop_closed q :
  _is_valid q = false -> try_pop q = ((FifoError.Destroyed, None), q, []).
Proof. intros H. crit; try reflexivity; congruence. Qed.

Lemma try_pop_empty q :
  _is_valid q = true -> _storage q = [] ->
  try_pop q = ((FifoError.Empty, None), q, []).
Proof. intros H E. unfold try_pop. rewrite H, E. reflexivity. Qed.

Lemma try_pop_head q x d :
  _is_valid q = true -> _storage q = x :: d ->
  try_pop q = ((FifoError.OK, Some x), mkFifoQueue (max_size q) d true,
               [notify_one _c_push_blockin_on]).
Proof.
  intros H E. unfold try_pop, set_storage. rewrite H, E. reflexivity.
Qed.

Lemma try_push_full q v :
  _is_valid q = true -> deque_size (_storage q) = max_size q ->
  try_push q v = (FifoError.Full, q, []).
Proof.
  intros H E. unfold try_push. rewrite H, (at_capacity_is_full q E).
  reflexivity.
Qed.

(** A non-blocking call that does not return [OK] changes nothing and
    notifies nobody. *)
Lemma try_push_failed q v :
  (try_push q v).1.1 <> FifoError.OK -> (try_push q v).1.2 = q /\ (try_push q v).2 = [].
Proof. crit; simpl; intros H; try (split; reflexivity). congruence. Qed.

Lemma try_pop_failed q :
  (try_pop q).1.1.1 <> FifoError.OK -> (try_pop q).1.2 = q /\ (try_pop q).2 = [].
Proof. crit; simpl; intros H; try (split; reflexivity). congruence. Qed.

Lemma erase_if_survivors f d :
  Forall (fun x => f x = false) (deque_erase_if f d) /\
  (forall x, In x d -> f x = false -> In x (deque_erase_if f d)) /\
  (forall x, In x (deque_erase_if f d) -> In x d).
Proof.
  unfold deque_erase_if. repeat split.
  - apply List.Forall_forall. intros x Hx.
    apply List.filter_In in Hx as [_ Hx]. now apply negb_true_iff in Hx.
  - intros x Hx Hf. apply List.filter_In. split; [exact Hx|].
    now apply negb_true_iff.
  - intros x Hx. now apply List.filter_In in Hx.
Qed.
End Members.

(** ** Draining a closed queue *)

(** C1, counterexample: at the end of "[fifo] close" the queue is closed and
    still holds 1 and 2, and [pop] returns [Destroyed] without a value; so
    does [pop] called directly on such a queue, which it leaves as it is. *)
Lemma pop_closed_nonempty_counterexample :
  option_map (fun r => (map ev_response r.2, queue r.1)) (run (boot 2) close_test)
  = Some ([ret_error FifoError.OK None; ret_error FifoError.OK None;
           sleeps _c_push_blockin_on; ret_void;
           ret_error FifoError.Destroyed None;
           ret_error FifoError.Destroyed None],
          mkFifoQueue 2 [1; 2] false) /\
  pop (mkFifoQueue 2 [1; 2] false)
  = (Returned (FifoError.Destroyed, None), mkFifoQueue 2 [1; 2] false, []) /\
  (pop (mkFifoQueue 2 [1; 2] false)).1.1 <> Returned (FifoError.OK, Some 1).
Proof. repeat split. discriminate. Qed.

(** C1, as amended: on a closed queue [pop] returns [Destroyed] whether the
    storage is empty or not; it assigns no value, leaves the queue as it is
    and notifies nobody.  [close] itself discards nothing: the storage of
    the closed queue is the storage before. *)
Theorem pop_closed_returns_Destroyed {T : Type} (q0 q : FifoQueue T) :
  _is_valid q = false ->
  _storage (close q0).1 = _storage q0 /\
  _is_valid (close q0).1 = false /\
  pop q = (Returned (FifoError.Destroyed, None), q, []) /\
  pop_timeout q = (Returned (FifoError.Destroyed, None), q, []).
Proof.
  intros H. repeat split.
  - now apply pop_closed.
  - now apply (pop_closed q).
Qed.

Lemma pop_closed_returns_Destroyed_witness :
  _is_valid (mkFifoQueue 2 [1; 2] false) = false /\
  pop (mkFifoQueue 2 [1; 2] false)
  = (Returned (FifoError.Destroyed, None), mkFifoQueue 2 [1; 2] false, []).
Proof.
  split; [reflexivity|].
  apply (pop_closed_returns_Destroyed
           (mkFifoQueue 2 [1; 2] true) (mkFifoQueue 2 [1; 2] false)).
  reflexivity.
Defined.

(** ** Construction *)

(** C2, counterexample: the constructor accepts 0 and -5, both values of
    [int64_t], and the queues it builds have capacity 0 and -5. *)
Lemma construct_nonpositive_counterexample :
  int64_range 0 /\ int64_range (-5) /\
  @FifoQueue_new Z 0 = mkFifoQueue 0 [] true /\
  @FifoQueue_new Z (-5) = mkFifoQueue (-5) [] true /\
  ~ 1 <= max_size (@FifoQueue_new Z 0) /\
  ~ 1 <= max_size (@FifoQueue_new Z (-5)).
Proof.
  unfold int64_range, INT64_MIN, INT64_MAX. simpl. repeat split; lia.
Qed.

(** C2, as amended: the constructor rejects nothing.  For every argument,
    zero and negative ones included, it builds an open, empty queue whose
    capacity is the argument as given; so a constructed queue has a capacity
    of at least 1 exactly when the argument was at least 1. *)
Theorem construct_keeps_argument {T : Type} (n : Z) :
  max_size (@FifoQueue_new T n) = n /\
  _storage (@FifoQueue_new T n) = [] /\
  running (@FifoQueue_new T n) = true /\
  size (@FifoQueue_new T n) = 0 /\
  (1 <= max_size (@FifoQueue_new T n) <-> 1 <= n).
Proof. repeat split; auto. Qed.

(** ** Non-blocking consumer and producer *)

(** C6: [try_pop] on a closed queue returns [Destroyed] whatever the storage
    holds; on an open, empty queue it returns [Empty]; on an open queue
    whose storage is [x :: d] it returns [OK] with [x], leaves [d] in
    storage and notifies one producer. *)
Theorem try_pop_cases {T : Type} (q : FifoQueue T) :
  (_is_valid q = false ->
   try_pop q = ((FifoError.Destroyed, None), q, [])) /\
  (_is_valid q = true -> _storage q = [] ->
   try_pop q = ((FifoError.Empty, None), q, [])) /\
  (forall x d, _is_valid q = true -> _storage q = x :: d ->
   try_pop q = ((FifoError.OK, Some x), mkFifoQueue (max_size q) d true,
                [notify_one _c_push_blockin_on])).
Proof.
  split; [apply try_pop_closed|]. split; [apply try_pop_empty|].
  intros x d. apply try_pop_head.
Qed.

Lemma try_pop_cases_witness :
  try_pop (mkFifoQueue 2 [1; 2] false)
  = ((FifoError.Destroyed, None), mkFifoQueue 2 [1; 2] false, []) /\
  try_pop (mkFifoQueue 2 ([] : list Z) true)
  = ((FifoError.Empty, None), mkFifoQueue 2 [] true, []) /\
  try_pop (mkFifoQueue 2 [1; 2] true)
  = ((FifoError.OK, Some 1), mkFifoQueue 2 [2] true,
     [notify_one _c_push_blockin_on]).
Proof.
  split; [|split].
  - apply (proj1 (try_pop_cases (mkFifoQueue 2 [1; 2] false))). reflexivity.
  - apply (proj1 (proj2 (try_pop_cases (mkFifoQueue 2 [] true)))); reflexivity.
  - apply (proj2 (proj2 (try_pop_cases (mkFifoQueue 2 [1; 2] true))) 1 [2]);
      reflexivity.
Defined.

(** C8: [try_push] on an open queue holding [max_size] elements returns
    [Full] and [try_pop] on an open, empty queue returns [Empty]; in both
    cases the queue, its storage included, is as before.  More generally a
    [try_push] or [try_pop] that does not return [OK] leaves the queue as
    it is. *)
Theorem failed_try_leaves_storage {T : Type} (q : FifoQueue T) (v : T) :
  (_is_valid q = true -> deque_size (_storage q) = max_size q ->
   try_push q v = (FifoError.Full, q, [])) /\
  (_is_valid q = true -> _storage q = [] ->
   try_pop q = ((FifoError.Empty, None), q, [])) /\
  ((try_push q v).1.1 <> FifoError.OK ->
   _storage (try_push q v).1.2 = _storage q) /\
  ((try_pop q).1.1.1 <> FifoError.OK ->
   _storage (try_pop q).1.2 = _storage q).
Proof.
  split; [apply try_push_full|]. split; [apply try_pop_empty|]. split.
  - intros H. now destruct (try_push_failed q v H) as [-> _].
  - intros H. now destruct (try_pop_failed q H) as [-> _].
Qed.

Lemma failed_try_leaves_storage_witness :
  try_push (mkFifoQueue 2 [1; 2] true) 3
  = (FifoError.Full, mkFifoQueue 2 [1; 2] true, []) /\
  try_pop (mkFifoQueue 2 ([] : list Z) true)
  = ((FifoError.Empty, None), mkFifoQueue 2 [] true, []).
Proof.
  split.
  - apply (proj1 (failed_try_leaves_storage (mkFifoQueue 2 [1; 2] true) 3));
      reflexivity.
  - apply (proj1 (proj2 (failed_try_leaves_storage (mkFifoQueue 2 [] true) 3)));
      reflexivity.
Defined.

(** ** Bulk removal *)

(** C10: [erase_if] does not look at [_is_valid] and returns no status.  On
    every queue, closed ones included, it leaves in storage exactly the
    elements that do not satisfy the predicate, in their order, and leaves
    the flag as it was; so the storage of a closed queue changes: erasing
    the even numbers from the closed queue holding 1, 2, 3, 4 leaves 1, 3. *)
Theorem erase_if_ignores_closed {T : Type} (q : FifoQueue T) (f : T -> bool) :
  enter q (call_erase_if f) = (ret_void, (erase_if q f).1, []) /\
  _storage (erase_if q f).1 = List.filter (fun x => negb (f x)) (_storage q) /\
  Forall (fun x => f x = false) (_storage (erase_if q f).1) /\
  (forall x, In x (_storage (erase_if q f).1) <->
             In x (_storage q) /\ f x = false) /\
  _is_valid (erase_if q f).1 = _is_valid q /\
  max_size (erase_if q f).1 = max_size q /\
  erase_if (mkFifoQueue 4 [1; 2; 3; 4] false) Z.even
  = (mkFifoQueue 4 [1; 3] false, []).
Proof.
  destruct (erase_if_survivors f (_storage q)) as (Hall & Hkeep & Hfrom).
  split; [reflexivity|]. split; [reflexivity|]. split; [exact Hall|].
  split; [|repeat split].
  intros x. simpl. split.
  - intros Hx. split; [now apply Hfrom|].
    rewrite List.Forall_forall in Hall. now apply Hall.
  - intros [Hx Hf]. now apply Hkeep.
Qed.

(** ** Executions, event by event *)

Section Traces.
Context {T : Type}.
Implicit Types (q : FifoQueue T) (c : Call T) (s : System T) (ev : Event T).

(** A property of the events that holds for every critical section run on
    a queue satisfying an invariant [P] holds along every execution. *)
Lemma run_events (P : FifoQueue T -> Prop) (Q : Event T -> Prop) :
  (forall q c, P q -> P (enter q c).1.2) ->
  (forall q c st out, resume q c st = Some out -> P q -> P out.1.2) ->
  (forall q t c, P q -> Q (mkEvent t c (enter q c).1.1 (enter q c).2)) ->
  (forall q t c st out,
      resume q c st = Some out -> P q -> Q (mkEvent t c out.1.1 out.2)) ->
  forall sched s s' evs,
    run s sched = Some (s', evs) -> P (queue s) -> Forall Q evs.
Proof.
  intros HPe HPr HQe HQr sched.
  induction sched as [|[t a] sched IH]; intros s s' evs; simpl.
  - intros [= <- <-] _. constructor.
  - destruct (exec s t a) as [[s1 ev]|] eqn:E; [|discriminate].
    destruct (run s1 sched) as [[s2 evs']|] eqn:R; [|discriminate].
    intros [= <- <-] HP.
    apply exec_inv in E as (c & out & [[_ ->]|(st & _ & Hr)] & -> & Hq).
    + constructor; [now apply HQe|].
      apply (IH _ _ _ R). rewrite Hq. now apply HPe.
    + constructor; [now apply (HQr _ _ _ _ _ Hr)|].
      apply (IH _ _ _ R). rewrite Hq. now apply (HPr _ _ _ _ Hr).
Qed.

(** *** The size seen by [size()] *)

Lemma bounded_by_within cap q :
  0 <= cap <= INT64_MAX -> bounded_by cap q <-> max_size q = cap /\ within_capacity q.
Proof.
  unfold bounded_by, within_capacity, INT64_MAX. intros Hcap.
  pose proof (deque_size_nonneg (_storage q)).
  split; intros [Hm Hs]; (split; [exact Hm|]);
    rewrite Hm in *; rewrite to_uint64_small in *; lia.
Qed.

Lemma enter_bounded_by cap q c :
  0 <= cap <= INT64_MAX -> bounded_by cap q -> bounded_by cap (enter q c).1.2.
Proof.
  intros Hcap Hq. apply (bounded_by_within cap _ Hcap).
  apply (bounded_by_within cap _ Hcap) in Hq as [Hm Hs]. split.
  - now rewrite enter_max_size.
  - now apply enter_within_capacity.
Qed.

Lemma resume_bounded_by cap q c st out :
  0 <= cap <= INT64_MAX ->
  resume q c st = Some out -> bounded_by cap q -> bounded_by cap out.1.2.
Proof.
  intros Hcap Hr Hq. apply (bounded_by_within cap _ Hcap).
  apply (bounded_by_within cap _ Hcap) in Hq as [Hm Hs]. split.
  - now rewrite (resume_max_size _ _ _ _ Hr).
  - now apply (resume_within_capacity _ _ _ _ Hr).
Qed.

Lemma size_bounded_by cap q :
  0 <= cap <= INT64_MAX -> bounded_by cap q ->
  size q = deque_size (_storage q) /\ 0 <= size q <= cap.
Proof.
  intros Hcap [Hm Hs]. pose proof (deque_size_nonneg (_storage q)).
  unfold size. rewrite to_int64_small.
  - split; [reflexivity|lia].
  - unfold int64_range, INT64_MIN, INT64_MAX in *. lia.
Qed.

Lemma enter_size_in_bounds cap q t c :
  0 <= cap <= INT64_MAX -> bounded_by cap q ->
  size_in_bounds cap (mkEvent t c (enter q c).1.1 (enter q c).2).
Proof.
  intros Hcap Hq n. destruct (size_bounded_by cap q Hcap Hq) as [_ Hsz].
  destruct c; try (crit; simpl; discriminate).
  simpl. intros [= <-]. exact Hsz.
Qed.

Lemma resume_size_in_bounds cap q t c st out :
  resume q c st = Some out ->
  size_in_bounds cap (mkEvent t c out.1.1 out.2).
Proof.
  intros Hr n. revert Hr.
  destruct c, st; crit; intros [= <-]; simpl; discriminate.
Qed.

(** *** [running()] after [close()] *)

Lemma enter_reports_closed q t c :
  _is_valid q = false -> reports_closed (mkEvent t c (enter q c).1.1 (enter q c).2).
Proof.
  intros Hq b. destruct c; crit; simpl; try discriminate; try congruence.
Qed.

Lemma resume_reports_closed q t c st out :
  resume q c st = Some out -> reports_closed (mkEvent t c out.1.1 out.2).
Proof.
  intros Hr b. revert Hr.
  destruct c, st; crit; intros [= <-]; simpl; discriminate.
Qed.
End Traces.

(** ** The size stays within the capacity *)

(** C4: let [cap] be a capacity of at least 1 (and, being an [int64_t], at
    most [INT64_MAX]).  The queue constructed with it satisfies
    [0 <= len(storage) <= capacity]; every critical section of every member
    function, entered or resumed after a [wait], preserves it; so after any
    execution from the constructed queue, whatever the threads, their calls
    and their wake-ups, the capacity is still [cap], the storage holds
    between 0 and [cap] elements, [size()] called at that point returns that
    number, and every [size()] answered on the way was between 0 and
    [cap]. *)
Theorem size_within_capacity {T : Type} (cap : Z) :
  1 <= cap <= INT64_MAX ->
  bounded_by cap (@FifoQueue_new T cap) /\
  (forall (q : FifoQueue T) (c : Call T),
      bounded_by cap q -> bounded_by cap (enter q c).1.2) /\
  (forall (q : FifoQueue T) (c : Call T) (st : cv_status) out,
      resume q c st = Some out -> bounded_by cap q -> bounded_by cap out.1.2) /\
  (forall (sched : list (nat * Action T)) (s : System T) (evs : list (Event T)),
      run (boot cap) sched = Some (s, evs) ->
      max_size (queue s) = cap /\
      0 <= deque_size (_storage (queue s)) <= cap /\
      size (queue s) = deque_size (_storage (queue s)) /\
      0 <= size (queue s) <= cap /\
      Forall (size_in_bounds cap) evs).
Proof.
  intros Hcap.
  assert (Hcap0 : 0 <= cap <= INT64_MAX) by lia.
  assert (Hboot : bounded_by cap (@FifoQueue_new T cap)).
  { split; [reflexivity|]. unfold deque_size. simpl. lia. }
  split; [exact Hboot|].
  split; [intros q c; now apply enter_bounded_by|].
  split; [intros q c st out; now apply resume_bounded_by|].
  intros sched s evs R.
  assert (Hs : bounded_by cap (queue s)).
  { revert R Hboot. apply (run_invariant (bounded_by cap)).
    - intros q c. now apply enter_bounded_by.
    - intros q c st out. now apply resume_bounded_by. }
  destruct (size_bounded_by cap (queue s) Hcap0 Hs) as [Hsz Hrange].
  destruct Hs as [Hm Hlen].
  repeat split; try assumption; try lia.
  revert R Hboot. apply (run_events (bounded_by cap)).
  - intros q c. now apply enter_bounded_by.
  - intros q c st out. now apply resume_bounded_by.
  - intros q t c. now apply enter_size_in_bounds.
  - intros q t c st out Hr _. now apply (resume_size_in_bounds _ _ _ _ _ _ Hr).
Qed.

Lemma size_within_capacity_witness :
  option_map (fun r => map ev_response r.2) (run (boot 2) full_test)
  = Some [ret_error FifoError.OK None; ret_error FifoError.OK None;
          ret_error FifoError.Full None; ret_int64 2] /\
  exists s evs,
    run (boot 2) full_test = Some (s, evs) /\
    0 <= size (queue s) <= 2 /\ Forall (size_in_bounds 2) evs.
Proof.
  split; [reflexivity|].
  destruct (run (boot 2) full_test) as [[s evs]|] eqn:R; [|discriminate].
  exists s, evs. split; [reflexivity|].
  assert (Hcap : 1 <= 2 <= INT64_MAX) by (unfold INT64_MAX; lia).
  destruct (@size_within_capacity Z 2 Hcap) as (_ & _ & _ & Hrun).
  destruct (Hrun full_test s evs R) as (_ & _ & _ & Hsz & Hevs).
  split; assumption.
Defined.

(** ** The closed state is terminal *)

(** C7: after [close()], however the execution goes on, [_is_valid] is
    false at the end, [running()] called there returns false, every
    [running()] answered on the way returned false, and a second [close()]
    gives the same queue and sends the two broadcasts again. *)
Theorem closed_is_terminal {T : Type} (q : FifoQueue T)
    (sl : gmap nat (Call T)) (sched : list (nat * Action T))
    (s : System T) (evs : list (Event T)) :
  run (mkSystem (close q).1 sl) sched = Some (s, evs) ->
  _is_valid (queue s) = false /\
  running (queue s) = false /\
  Forall reports_closed evs /\
  close (close q).1
  = ((close q).1, [notify_all _c_pop_blocking_on; notify_all _c_push_blockin_on]).
Proof.
  intros R.
  assert (Hs : _is_valid (queue s) = false) by now apply (run_closed _ _ _ _ R).
  repeat split; try exact Hs.
  revert R. intros R.
  apply (run_events (fun q => _is_valid q = false) reports_closed) in R;
    [exact R| | | | |reflexivity].
  - intros q' c. apply enter_closed.
  - intros q' c st out. apply resume_closed.
  - intros q' t c. apply enter_reports_closed.
  - intros q' t c st out Hr _. now apply (resume_reports_closed _ _ _ _ _ Hr).
Qed.

Lemma closed_is_terminal_witness :
  option_map (fun r => map ev_response r.2)
    (run (mkSystem (close (mkFifoQueue 2 [1] true)).1 ∅) after_close_test)
  = Some [ret_bool false; ret_error FifoError.Destroyed None;
          ret_error FifoError.Destroyed None;
          ret_error FifoError.Destroyed None; ret_void; ret_bool false] /\
  exists s evs,
    run (mkSystem (close (mkFifoQueue 2 [1] true)).1 ∅) after_close_test
    = Some (s, evs) /\
    running (queue s) = false /\ Forall reports_closed evs.
Proof.
  split; [reflexivity|].
  destruct (run (mkSystem (close (mkFifoQueue 2 [1] true)).1 ∅) after_close_test)
    as [[s evs]|] eqn:R; [|discriminate].
  exists s, evs. split; [reflexivity|].
  destruct (closed_is_terminal (mkFifoQueue 2 [1] true) ∅ after_close_test s evs R)
    as (_ & Hrun & Hevs & _).
  split; assumption.
Defined.

(** ** Selective removal *)

(** C5: on an open queue whose storage is [d1 ++ x :: d2], where no element
    of [d1] satisfies the predicate and [x] does, [get] returns [OK] with
    [x] and leaves [d1 ++ d2]; when no element satisfies the predicate it
    returns [NotFound] and leaves the queue as it is.  After pushing 1, 2,
    3, 4, 5, [get] of "equal to 3" returns [OK] with 3, [size()] goes from 5
    to 4 and the storage is 1, 2, 4, 5. *)
Theorem get_first_match {T : Type} (q : FifoQueue T) (f : T -> bool) :
  _is_valid q = true ->
  (forall d1 x d2,
      _storage q = d1 ++ x :: d2 ->
      Forall (fun y => f y = false) d1 -> f x = true ->
      (get q f).1 = ((FifoError.OK, Some x),
                     mkFifoQueue (max_size q) (d1 ++ d2) true)) /\
  (Forall (fun y => f y = false) (_storage q) ->
   (get q f).1 = ((FifoError.NotFound, None), q)) /\
  option_map (fun r => (map ev_response r.2, queue r.1))
    (run (mkSystem FifoQueue_default ∅) get_test)
  = Some ([ret_error FifoError.OK None; ret_error FifoError.OK None;
           ret_error FifoError.OK None; ret_error FifoError.OK None;
           ret_error FifoError.OK None; ret_int64 5;
           ret_error FifoError.OK (Some 3); ret_int64 4],
          mkFifoQueue INT64_MAX [1; 2; 4; 5] true).
Proof.
  intros Hq. split; [|split].
  - intros d1 x d2 Hd Hall Hx.
    assert (E : find_erase f (_storage q) = Some (x, d1 ++ d2)).
    { apply find_erase_Some. exists d1, d2. repeat split; assumption. }
    unfold get, set_storage. rewrite Hq, E. reflexivity.
  - intros Hall. apply find_erase_None in Hall.
    unfold get. rewrite Hq, Hall. reflexivity.
  - vm_compute. reflexivity.
Qed.

Lemma get_first_match_witness :
  (get (mkFifoQueue 9 [1; 2; 3; 4; 5] true) (Z.eqb 3)).1
  = ((FifoError.OK, Some 3), mkFifoQueue 9 [1; 2; 4; 5] true) /\
  (get (mkFifoQueue 9 [1; 2; 3; 4; 5] true) (Z.eqb 7)).1
  = ((FifoError.NotFound, None), mkFifoQueue 9 [1; 2; 3; 4; 5] true).
Proof.
  split.
  - apply (proj1 (get_first_match (mkFifoQueue 9 [1; 2; 3; 4; 5] true)
                    (Z.eqb 3) eq_refl) [1; 2] 3 [4; 5]).
    + reflexivity.
    + repeat constructor.
    + reflexivity.
  - apply (proj1 (proj2 (get_first_match (mkFifoQueue 9 [1; 2; 3; 4; 5] true)
                           (Z.eqb 7) eq_refl))).
    repeat constructor.
Defined.

(** ** First in, first out *)

Section Fifo.
Context {T : Type}.
Implicit Types (q : FifoQueue T) (c : Call T) (s : System T) (d : list T).

(** One critical section of a call other than [get] and [erase_if]: what
    was in storage followed by what it appended is what it handed out
    followed by what is in storage now. *)
Lemma enter_fifo q t c :
  is_selective c = false ->
  _storage q ++ pushed_value (mkEvent t c (enter q c).1.1 (enter q c).2)
  = popped_value (mkEvent t c (enter q c).1.1 (enter q c).2)
    ++ _storage (enter q c).1.2.
Proof.
  intros Hc. destruct c; try discriminate; crit; simpl;
    rewrite ?app_nil_r; try reflexivity;
    destruct (_storage q); try discriminate; reflexivity.
Qed.

Lemma resume_fifo q t c st out :
  resume q c st = Some out ->
  _storage q ++ pushed_value (mkEvent t c out.1.1 out.2)
  = popped_value (mkEvent t c out.1.1 out.2) ++ _storage out.1.2.
Proof.
  destruct c, st; crit; intros [= <-]; simpl;
    rewrite ?app_nil_r; try reflexivity;
    destruct (_storage q); try discriminate; reflexivity.
Qed.

Lemma run_fifo sched s s' evs :
  forallb (fun a => negb (action_selective a)) sched = true ->
  run s sched = Some (s', evs) ->
  _storage (queue s) ++ pushed evs = popped evs ++ _storage (queue s').
Proof.
  unfold pushed, popped. revert s s' evs.
  induction sched as [|[t a] sched IH]; intros s s' evs; simpl.
  - intros _ [= <- <-]. simpl. now rewrite app_nil_r.
  - intros Hsel. apply andb_true_iff in Hsel as [Ha Hsel].
    destruct (exec s t a) as [[s1 ev]|] eqn:E; [|discriminate].
    destruct (run s1 sched) as [[s2 evs']|] eqn:R; [|discriminate].
    intros [= <- <-]. simpl. specialize (IH _ _ _ Hsel R).
    assert (Hstep : _storage (queue s) ++ pushed_value ev
                    = popped_value ev ++ _storage (queue s1)).
    { apply exec_inv in E as (c & out & [[-> ->]|(st & _ & Hr)] & -> & ->).
      - apply enter_fifo. unfold action_selective in Ha. simpl in Ha.
        now apply negb_true_iff in Ha.
      - now apply (resume_fifo _ _ _ _ _ Hr). }
    rewrite app_assoc, Hstep, <- !app_assoc. now rewrite IH.
Qed.

(** While there is room, every [push] of an open queue returns [OK]. *)
Lemma run_pushes t (vs : list T) s :
  _is_valid (queue s) = true -> sleeping s !! t = None ->
  deque_size (_storage (queue s)) + deque_size vs <= to_uint64 (max_size (queue s)) ->
  run s (pushes t vs)
  = Some (mkSystem (set_storage (queue s) (_storage (queue s) ++ vs)) (sleeping s),
          map (fun v => mkEvent t (call_push v) (ret_error FifoError.OK None)
                          [notify_one _c_pop_blocking_on]) vs).
Proof.
  revert s. induction vs as [|v vs IH]; intros s Hv Ht Hroom; simpl.
  - rewrite app_nil_r. destruct s as [[m d b] sl]. reflexivity.
  - unfold exec. rewrite Ht. simpl. unfold push, push_while. rewrite Hv. simpl.
    assert (Hfull : is_full (queue s) = false).
    { unfold is_full. apply Z.leb_gt. unfold deque_size in *. simpl in Hroom. lia. }
    rewrite Hfull. simpl. rewrite (delete_id _ _ Ht).
    rewrite IH; simpl; try assumption.
    + unfold set_storage, push_back. simpl. now rewrite <- app_assoc.
    + rewrite deque_size_push_back. unfold deque_size in *. simpl in Hroom. lia.
Qed.

(** Every [pop] of an open queue that is not empty returns [OK] with the
    element at the front. *)
Lemma run_pops t (vs : list T) d (m : Z) (sl : gmap nat (Call T)) :
  sl !! t = None ->
  run (mkSystem (mkFifoQueue m (vs ++ d) true) sl) (pops t (length vs))
  = Some (mkSystem (mkFifoQueue m d true) sl,
          map (fun v => mkEvent t call_pop (ret_error FifoError.OK (Some v))
                          [notify_one _c_push_blockin_on]) vs).
Proof.
  intros Ht. unfold pops. induction vs as [|v vs IH]; simpl; [reflexivity|].
  unfold exec. simpl. rewrite Ht. simpl. rewrite (delete_id _ _ Ht).
  unfold set_storage. simpl. rewrite IH. reflexivity.
Qed.
End Fifo.

(** C9: along every execution that calls neither [get] nor [erase_if],
    whatever the interleaving of the threads, the values in storage at the
    start followed by the values of the successful pushes, in the order of
    their appends, are the values handed out by the successful pops, in
    the order of the pops, followed by the values left in storage: the pops
    return the pushed values in the order of their appends.  On a fresh
    queue with room for [vs], pushing [vs] and popping as many times
    succeeds throughout and returns [vs] in order; and a push of [v] into
    an open, empty queue followed by a pop returns [v] and the queue as it
    was. *)
Theorem fifo_order {T : Type} :
  (forall (s s' : System T) sched evs,
      forallb (fun a => negb (action_selective a)) sched = true ->
      run s sched = Some (s', evs) ->
      _storage (queue s) ++ pushed evs = popped evs ++ _storage (queue s')) /\
  (forall (cap : Z) (t : nat) (vs : list T),
      deque_size vs <= to_uint64 cap ->
      exists evs1 evs2,
        run (boot cap) (pushes t vs ++ pops t (length vs))
        = Some (boot cap, evs1 ++ evs2) /\
        map ev_response evs1 = map (fun _ => ret_error FifoError.OK None) vs /\
        map ev_response evs2
        = map (fun v => ret_error FifoError.OK (Some v)) vs) /\
  (forall (q : FifoQueue T) (v : T),
      _is_valid q = true -> _storage q = [] -> is_full q = false ->
      exists q1,
        push q v = (Returned FifoError.OK, q1, [notify_one _c_pop_blocking_on]) /\
        _storage q1 = [v] /\
        pop q1 = (Returned (FifoError.OK, Some v), q,
                  [notify_one _c_push_blockin_on])).
Proof.
  split; [|split].
  - intros s s' sched evs. apply run_fifo.
  - intros cap t vs Hroom.
    eexists _, _. split; [|split].
    + erewrite run_app.
      2:{ apply run_pushes; [reflexivity|apply lookup_empty|].
          simpl. unfold deque_size at 1. simpl. lia. }
      simpl. unfold set_storage. simpl.
      rewrite <- (app_nil_r vs) at 1.
      rewrite (run_pops t vs [] cap ∅ (lookup_empty t)). reflexivity.
    + rewrite map_map. reflexivity.
    + rewrite map_map. reflexivity.
  - intros [m d b] v Hv Hd Hfull. simpl in Hv, Hd. subst.
    eexists. unfold push, push_while. rewrite Hfull. simpl.
    split; [reflexivity|]. split; reflexivity.
Qed.

Lemma fifo_order_witness :
  exists s evs,
    run (boot 2) blocking_push_test = Some (s, evs) /\
    pushed evs = [1; 2; 7] /\ popped evs = [1] /\
    _storage (queue s) = [2; 7] /\
    _storage (queue (@boot Z 2)) ++ pushed evs = popped evs ++ _storage (queue s).
Proof.
  destruct (run (boot 2) blocking_push_test) as [[s evs]|] eqn:R;
    [|discriminate].
  exists s, evs.
  pose proof (proj1 fifo_order (boot 2) s blocking_push_test evs eq_refl R) as H.
  split; [reflexivity|]. split; [|split; [|split; [|exact H]]].
  all: injection R as <- <-; reflexivity.
Defined.

(** ** Notifications *)

(** C3, where the code leaves the claim: [get] and [erase_if] free a slot
    of the full queue and notify nobody, so the producer asleep in [push]
    is not woken; [try_pop] in the same state notifies one producer. *)
Lemma get_and_erase_if_notify_nobody :
  last_step (run (boot 2) (full_with_sleeper (call_get (Z.eqb 1))))
  = Some (ret_error FifoError.OK (Some 1), [], [2], Some (call_push 7)) /\
  last_step (run (boot 2) (full_with_sleeper (call_erase_if (Z.eqb 1))))
  = Some (ret_void, [], [2], Some (call_push 7)) /\
  last_step (run (boot 2) (full_with_sleeper call_try_pop))
  = Some (ret_error FifoError.OK (Some 1), [notify_one _c_push_blockin_on],
          [2], Some (call_push 7)).
Proof. repeat split. Qed.

(** ** Further properties of the code *)

Lemma enter_signals {T : Type} (q : FifoQueue T) (t : nat) (c : Call T) :
  (enter q c).2 = expected_signals (mkEvent t c (enter q c).1.1 (enter q c).2).
Proof. destruct c; crit; reflexivity. Qed.

Lemma resume_signals {T : Type} (q : FifoQueue T) (t : nat) (c : Call T)
    (st : cv_status) out :
  resume q c st = Some out ->
  out.2 = expected_signals (mkEvent t c out.1.1 out.2).
Proof. destruct c, st; crit; intros [= <-]; reflexivity. Qed.

(** Signalling as the code does it: along every execution, a successful
    [push] or [try_push] notifies one thread on [_c_pop_blocking_on]; a
    successful [pop], [try_pop] or timed [pop] notifies one thread on
    [_c_push_blockin_on]; [close] broadcasts on both; every other critical
    section, those of [get] and [erase_if] included, notifies nobody. *)
Theorem signalling_as_coded {T : Type} (s s' : System T)
    (sched : list (nat * Action T)) (evs : list (Event T)) :
  run s sched = Some (s', evs) ->
  Forall (fun ev => ev_signals ev = expected_signals ev) evs.
Proof.
  intros R.
  apply (run_events (fun _ => True)
           (fun ev => ev_signals ev = expected_signals ev)) in R; auto.
  - intros q t c _. apply enter_signals.
  - intros q t c st out Hr _. now apply (resume_signals q t c st out).
Qed.

Lemma signalling_as_coded_witness :
  option_map (fun r => map ev_signals r.2) (run (boot 2) close_test)
  = Some [[notify_one _c_pop_blocking_on]; [notify_one _c_pop_blocking_on];
          []; [notify_all _c_pop_blocking_on; notify_all _c_push_blockin_on];
          []; []] /\
  exists s evs,
    run (boot 2) close_test = Some (s, evs) /\
    Forall (fun ev => ev_signals ev = expected_signals ev) evs.
Proof.
  split; [reflexivity|].
  destruct (run (boot 2) close_test) as [[s evs]|] eqn:R; [|discriminate].
  exists s, evs. split; [reflexivity|].
  exact (signalling_as_coded (boot 2) s close_test evs R).
Defined.

(** Capacities below 1.  With capacity 0 an open queue is always full:
    [try_push] returns [Full] and [push] goes to sleep.  A negative
    capacity is converted to [size_t] by the comparison with
    [_storage.size()], so an open queue holding fewer than 2^63 elements is
    not full: [try_push] appends and returns [OK], and the storage grows
    past the capacity. *)
Theorem capacity_below_one {T : Type} (q : FifoQueue T) (v : T) :
  _is_valid q = true ->
  (max_size q = 0 ->
   try_push q v = (FifoError.Full, q, []) /\
   push q v = (Blocked _c_push_blockin_on, q, [])) /\
  (INT64_MIN <= max_size q < 0 -> deque_size (_storage q) < 2 ^ 63 ->
   try_push q v = (FifoError.OK, set_storage q (_storage q ++ [v]),
                   [notify_one _c_pop_blocking_on]) /\
   max_size q < deque_size (_storage (try_push q v).1.2)).
Proof.
  intros Hv. pose proof (deque_size_nonneg (_storage q)) as Hlen. split.
  - intros Hm.
    assert (Hfull : is_full q = true).
    { unfold is_full. rewrite Hm. apply Z.leb_le. exact Hlen. }
    unfold try_push, push, push_while. rewrite Hv, Hfull. split; reflexivity.
  - unfold INT64_MIN. intros Hm Hsmall.
    assert (Hfull : is_full q = false).
    { unfold is_full, to_uint64. apply Z.leb_gt.
      rewrite <- (Z.mod_add (max_size q) 1 (2 ^ 64)) by lia.
      rewrite Z.mod_small by lia. lia. }
    unfold try_push. rewrite Hv, Hfull. simpl. split; [reflexivity|].
    fold (push_back (_storage q) v). rewrite deque_size_push_back. lia.
Qed.

Lemma capacity_below_one_witness :
  try_push (FifoQueue_new 0) 1 = (FifoError.Full, FifoQueue_new 0, []) /\
  try_push (FifoQueue_new (-1)) 1
  = (FifoError.OK, mkFifoQueue (-1) [1] true, [notify_one _c_pop_blocking_on]).
Proof.
  split.
  - apply (proj1 (capacity_below_one (FifoQueue_new 0) 1 eq_refl)). reflexivity.
  - apply (proj2 (capacity_below_one (FifoQueue_new (-1)) 1 eq_refl)).
    + unfold INT64_MIN. simpl. lia.
    + unfold deque_size. simpl. lia.
Defined.

(** A closed queue takes nothing: [push], [try_push] and a [push] woken
    from its [wait] return [Destroyed] without appending, and [get] returns
    [Destroyed] without looking at the storage. *)
Theorem closed_rejects_producers {T : Type} (q : FifoQueue T) (v : T)
    (f : T -> bool) :
  _is_valid q = false ->
  push q v = (Returned FifoError.Destroyed, q, []) /\
  push_resume q v = (Returned FifoError.Destroyed, q, []) /\
  try_push q v = (FifoError.Destroyed, q, []) /\
  get q f = ((FifoError.Destroyed, None), q, []).
Proof.
  intros Hv. unfold push, push_resume, try_push, get. rewrite Hv.
  repeat split.
Qed.

Lemma closed_rejects_producers_witness :
  push_resume (mkFifoQueue 2 [1; 2] false) 9
  = (Returned FifoError.Destroyed, mkFifoQueue 2 [1; 2] false, []).
Proof.
  apply (closed_rejects_producers (mkFifoQueue 2 [1; 2] false) 9 (Z.eqb 1)).
  reflexivity.
Defined.

(** The timed [pop]: when [wait_until] reports a timeout the call returns
    [Timeouted], assigns no value and leaves the queue as it is, whatever
    the storage holds by then; on an open, empty queue the call first goes
    to sleep, as in the test. *)
Theorem pop_timeout_expires {T : Type} (q : FifoQueue T) :
  pop_timeout_resume q timeout = (Returned (FifoError.Timeouted, None), q, []) /\
  option_map (fun r => (map ev_response r.2, queue r.1))
    (run (boot 2) timeout_test)
  = Some ([sleeps _c_pop_blocking_on; ret_error FifoError.Timeouted None],
          mkFifoQueue 2 [] true).
Proof. split; reflexivity. Qed.

(** ** What a call can answer *)

Lemma enter_answers {T : Type} (q : FifoQueue T) (c : Call T) :
  answers_as_declared c (enter q c).1.1 = true.
Proof.
  destruct c; crit; simpl; try reflexivity;
    destruct (_storage q); try discriminate; reflexivity.
Qed.

Lemma resume_answers {T : Type} (q : FifoQueue T) (c : Call T)
    (st : cv_status) out :
  resume q c st = Some out -> answers_as_declared c out.1.1 = true.
Proof.
  destruct c, st; crit; intros [= <-]; simpl; try reflexivity;
    destruct (_storage q); try discriminate; reflexivity.
Qed.

(** Along every execution each call answers within its own repertoire:
    [push] returns [OK] or [Destroyed] (never [Full]) or sleeps on
    [_c_push_blockin_on]; [try_push] returns [OK], [Destroyed] or [Full];
    [try_pop] returns [OK], [Destroyed] or [Empty]; [pop] returns [OK] or
    [Destroyed] or sleeps on [_c_pop_blocking_on]; the timed [pop] may also
    return [Timeouted]; [get] returns [OK], [Destroyed] or [NotFound]; and
    the out-parameter of a consumer is assigned exactly when the status is
    [OK]. *)
Theorem answers_within_repertoire {T : Type} (s s' : System T)
    (sched : list (nat * Action T)) (evs : list (Event T)) :
  run s sched = Some (s', evs) ->
  Forall (fun ev => answers_as_declared (ev_call ev) (ev_response ev) = true) evs.
Proof.
  intros R.
  apply (run_events (fun _ => True)
           (fun ev => answers_as_declared (ev_call ev) (ev_response ev) = true))
    in R; auto.
  - intros q t c _. apply enter_answers.
  - intros q t c st out Hr _. now apply (resume_answers q c st out).
Qed.

Lemma answers_within_repertoire_witness :
  exists s evs,
    run (boot 2) close_test = Some (s, evs) /\
    Forall (fun ev => answers_as_declared (ev_call ev) (ev_response ev) = true)
      evs.
Proof.
  destruct (run (boot 2) close_test) as [[s evs]|] eqn:R; [|discriminate].
  exists s, evs. split; [reflexivity|].
  exact (answers_within_repertoire (boot 2) s close_test evs R).
Defined.

(** ** Outcomes in terms of [running()] and [size()] *)

Section Outcomes.
Context {T : Type}.
Implicit Types (q : FifoQueue T) (v : T).

Lemma is_full_bounded cap q :
  0 <= cap <= INT64_MAX -> bounded_by cap q ->
  (is_full q = true <-> size q = max_size q) /\
  (is_full q = false <-> size q < max_size q).
Proof.
  intros Hcap Hq. destruct (size_bounded_by cap q Hcap Hq) as [Hsz _].
  destruct Hq as [Hm Hlen]. unfold is_full. rewrite Hsz, Hm.
  rewrite to_uint64_small by (unfold INT64_MAX in Hcap; lia).
  rewrite Z.leb_le, Z.leb_gt. lia.
Qed.

Lemma size_push_back cap q v :
  0 <= cap <= INT64_MAX -> bounded_by cap q -> size q < max_size q ->
  size (set_storage q (push_back (_storage q) v)) = size q + 1.
Proof.
  intros Hcap Hq Hlt. destruct (size_bounded_by cap q Hcap Hq) as [Hsz _].
  rewrite Hsz in *. destruct Hq as [Hm Hlen]. unfold size, set_storage. simpl.
  rewrite deque_size_push_back. apply to_int64_small.
  unfold int64_range, INT64_MIN, INT64_MAX in *. lia.
Qed.

Lemma size_pop_front cap q :
  0 <= cap <= INT64_MAX -> bounded_by cap q -> _storage q <> [] ->
  size (set_storage q (pop_front (_storage q))) = size q - 1.
Proof.
  intros Hcap Hq Hne. destruct (size_bounded_by cap q Hcap Hq) as [Hsz _].
  rewrite Hsz. destruct Hq as [Hm Hlen]. unfold size, set_storage. simpl.
  destruct (_storage q) as [|x d]; [congruence|].
  unfold deque_size in *. simpl in *. rewrite to_int64_small; [lia|].
  unfold int64_range, INT64_MIN, INT64_MAX in *. lia.
Qed.

Lemma size_zero_empty cap q :
  0 <= cap <= INT64_MAX -> bounded_by cap q ->
  (size q = 0 <-> _storage q = []) /\ (0 < size q <-> _storage q <> []).
Proof.
  intros Hcap Hq. destruct (size_bounded_by cap q Hcap Hq) as [Hsz _].
  rewrite Hsz. unfold deque_size.
  destruct (_storage q); simpl; split; split; try congruence; try lia.
Qed.
End Outcomes.

(** The outcome of a producer call on a queue within its capacity [cap],
    [0 <= cap <= INT64_MAX], as a caller can predict it from [running()] and
    [size()]: [try_push] returns [Destroyed] exactly when the queue is
    closed, [Full] exactly when it is open and [size()] equals [max_size],
    and [OK] exactly when it is open and [size()] is below [max_size]; in
    that case the value is the new last element and [size()] is one more.
    [push] sleeps exactly where [try_push] returns [Full]. *)
Theorem producer_outcome {T : Type} (cap : Z) (q : FifoQueue T) (v : T) :
  0 <= cap <= INT64_MAX -> bounded_by cap q ->
  ((try_push q v).1.1 = FifoError.Destroyed <-> running q = false) /\
  ((try_push q v).1.1 = FifoError.Full <->
   running q = true /\ size q = max_size q) /\
  ((try_push q v).1.1 = FifoError.OK <->
   running q = true /\ size q < max_size q) /\
  ((try_push q v).1.1 = FifoError.OK ->
   _storage (try_push q v).1.2 = _storage q ++ [v] /\
   size (try_push q v).1.2 = size q + 1) /\
  ((push q v).1.1 = Blocked _c_push_blockin_on <->
   (try_push q v).1.1 = FifoError.Full).
Proof.
  intros Hcap Hq.
  destruct (is_full_bounded cap q Hcap Hq) as [Hfull Hroom].
  pose proof (size_push_back cap q v Hcap Hq) as Hsize.
  unfold try_push, push, push_while, running.
  destruct (_is_valid q) eqn:Hv; simpl.
  - destruct (is_full q) eqn:Hf; simpl.
    + assert (Hs : size q = max_size q) by now apply Hfull.
      repeat split; intros; try discriminate; try reflexivity;
        try assumption; try lia; intuition (try discriminate; try lia).
    + assert (Hs : size q < max_size q) by now apply Hroom.
      repeat split; intros; try discriminate; try reflexivity;
        try assumption; try lia; try (now apply Hsize);
        intuition (try discriminate; try lia).
  - repeat split; intros; try discriminate; try reflexivity;
      intuition (try discriminate).
Qed.

Lemma producer_outcome_witness :
  (try_push (mkFifoQueue 2 [1] true) 5).1.1 = FifoError.OK /\
  size (try_push (mkFifoQueue 2 [1] true) 5).1.2
  = size (mkFifoQueue 2 [1] true) + 1.
Proof.
  assert (Hcap : 0 <= 2 <= INT64_MAX) by (unfold INT64_MAX; lia).
  assert (Hq : bounded_by 2 (mkFifoQueue 2 [1] true)).
  { unfold bounded_by, deque_size. simpl. lia. }
  destruct (producer_outcome 2 (mkFifoQueue 2 [1] true) 5 Hcap Hq)
    as (_ & _ & Hok & Hgrow & _).
  assert (H : (try_push (mkFifoQueue 2 [1] true) 5).1.1 = FifoError.OK).
  { apply Hok. split; reflexivity. }
  split; [exact H|]. apply Hgrow, H.
Defined.

(** The outcome of a consumer call on a queue within its capacity [cap],
    [0 <= cap <= INT64_MAX], as a caller can predict it from [running()] and
    [size()]: [try_pop] returns [Destroyed] exactly when the queue is
    closed, [Empty] exactly when it is open and [size()] is 0, and [OK]
    exactly when it is open and [size()] is positive; in that case the
    value is the first element, the rest stays in order and [size()] is
    one less.  [pop] and the timed [pop] sleep exactly where [try_pop]
    returns [Empty]. *)
Theorem consumer_outcome {T : Type} (cap : Z) (q : FifoQueue T) :
  0 <= cap <= INT64_MAX -> bounded_by cap q ->
  ((try_pop q).1.1.1 = FifoError.Destroyed <-> running q = false) /\
  ((try_pop q).1.1.1 = FifoError.Empty <-> running q = true /\ size q = 0) /\
  ((try_pop q).1.1.1 = FifoError.OK <-> running q = true /\ 0 < size q) /\
  ((try_pop q).1.1.1 = FifoError.OK ->
   exists x, (try_pop q).1.1.2 = Some x /\
             _storage q = x :: _storage (try_pop q).1.2 /\
             size (try_pop q).1.2 = size q - 1) /\
  ((pop q).1.1 = Blocked _c_pop_blocking_on <->
   (try_pop q).1.1.1 = FifoError.Empty) /\
  ((pop_timeout q).1.1 = Blocked _c_pop_blocking_on <->
   (try_pop q).1.1.1 = FifoError.Empty).
Proof.
  intros Hcap Hq.
  destruct (size_zero_empty cap q Hcap Hq) as [Hzero Hpos].
  pose proof (size_pop_front cap q Hcap Hq) as Hsize.
  unfold try_pop, pop, pop_timeout, pop_after_while, running.
  destruct (_is_valid q) eqn:Hv; simpl.
  - destruct (_storage q) as [|x d] eqn:Hd; simpl.
    + assert (Hs : size q = 0) by now apply Hzero.
      repeat split; intros; try discriminate; try reflexivity;
        try assumption; try lia; intuition (try discriminate; try lia).
    + assert (Hs : 0 < size q) by (apply Hpos; discriminate).
      repeat split; intros; try discriminate; try reflexivity;
        try assumption; try lia.
      exists x. repeat split. apply Hsize. discriminate.
  - destruct (_storage q) as [|x d] eqn:Hd; simpl;
      repeat split; intros; try discriminate; try reflexivity;
        intuition (try discriminate).
Qed.

Lemma consumer_outcome_witness :
  (try_pop (mkFifoQueue 2 [7; 8] true)).1.1 = (FifoError.OK, Some 7) /\
  size (try_pop (mkFifoQueue 2 [7; 8] true)).1.2
  = size (mkFifoQueue 2 [7; 8] true) - 1.
Proof.
  assert (Hcap : 0 <= 2 <= INT64_MAX) by (unfold INT64_MAX; lia).
  assert (Hq : bounded_by 2 (mkFifoQueue 2 [7; 8] true)).
  { unfold bounded_by, deque_size. simpl. lia. }
  destruct (consumer_outcome 2 (mkFifoQueue 2 [7; 8] true) Hcap Hq)
    as (_ & _ & Hok & Hshrink & _).
  assert (H : (try_pop (mkFifoQueue 2 [7; 8] true)).1.1.1 = FifoError.OK).
  { apply Hok. split; reflexivity. }
  split; [reflexivity|].
  destruct (Hshrink H) as (x & _ & _ & Hsz). exact Hsz.
Defined.

(** The blocking calls are the non-blocking ones that wait: in every
    state [push] does what [try_push] does, except that it sleeps on
    [_c_push_blockin_on] where [try_push] returns [Full]; [pop] and the
    timed [pop] do what [try_pop] does, except that they sleep on
    [_c_pop_blocking_on] where [try_pop] returns [Empty]; and a call woken
    from its [wait] goes on as if it had just been entered. *)
Theorem blocking_is_try_that_waits {T : Type} (q : FifoQueue T) (v : T) :
  ((try_push q v).1.1 <> FifoError.Full ->
   push q v = (Returned (try_push q v).1.1, (try_push q v).1.2, (try_push q v).2)) /\
  ((try_push q v).1.1 = FifoError.Full ->
   push q v = (Blocked _c_push_blockin_on, q, [])) /\
  ((try_pop q).1.1.1 <> FifoError.Empty ->
   pop q = (Returned (try_pop q).1.1, (try_pop q).1.2, (try_pop q).2)) /\
  ((try_pop q).1.1.1 = FifoError.Empty ->
   pop q = (Blocked _c_pop_blocking_on, q, [])) /\
  pop_timeout q = pop q /\
  push_resume q v = push q v /\
  pop_resume q = pop q /\
  pop_timeout_resume q no_timeout = pop q.
Proof.
  unfold try_push, push, push_resume, push_while, try_pop, pop_resume,
    pop_timeout_resume, pop_timeout, pop, pop_after_while.
  destruct (_is_valid q), (is_full q), (deque_empty (_storage q)); simpl;
    repeat split; intros; try reflexivity; try discriminate; congruence.
Qed.

Lemma blocking_is_try_that_waits_witness :
  push (mkFifoQueue 2 [1; 2] true) 3
  = (Blocked _c_push_blockin_on, mkFifoQueue 2 [1; 2] true, []) /\
  pop (mkFifoQueue 2 [1; 2] true)
  = (Returned (FifoError.OK, Some 1), mkFifoQueue 2 [2] true,
     [notify_one _c_push_blockin_on]).
Proof.
  split.
  - apply (proj1 (proj2 (blocking_is_try_that_waits
                           (mkFifoQueue 2 [1; 2] true) 3))).
    reflexivity.
  - apply (proj1 (proj2 (proj2 (blocking_is_try_that_waits
                                  (mkFifoQueue 2 [1; 2] true) 3)))).
    discriminate.
Defined.

(** ** Sleeping threads *)

Section Sleepers.
Context {T : Type}.
Implicit Types (q : FifoQueue T) (c : Call T) (s : System T).

Lemma enter_sleeps_blocking q c cv :
  (enter q c).1.1 = sleeps cv -> is_blocking c = true.
Proof.
  destruct c; try reflexivity; crit; simpl; try discriminate;
    destruct (front (_storage q)); discriminate.
Qed.

Lemma finish_sleepers s t c out :
  (forall cv, out.1.1 = sleeps cv -> is_blocking c = true) ->
  sleepers_blocking s -> sleepers_blocking (finish s t c out).1.
Proof.
  intros Hc Hs t' c'. destruct out as [[r q'] sig]. simpl in *.
  destruct (decide (t' = t)) as [->|Hne].
  - destruct r; rewrite ?lookup_delete_eq, ?lookup_insert_eq; try discriminate.
    intros [= <-]. now apply (Hc c0).
  - destruct r; rewrite ?lookup_delete_ne, ?lookup_insert_ne by congruence;
      apply Hs.
Qed.

Lemma exec_sleepers s t a s' ev :
  exec s t a = Some (s', ev) -> sleepers_blocking s -> sleepers_blocking s'.
Proof.
  unfold exec. intros E Hs.
  destruct a as [c|st], (sleeping s !! t) as [c'|] eqn:Ht; try discriminate.
  - injection E as E. apply (f_equal fst) in E. simpl in E. rewrite <- E.
    apply finish_sleepers; [|exact Hs]. intros cv. apply enter_sleeps_blocking.
  - destruct (resume (queue s) c' st) as [out|]; [|discriminate].
    injection E as E. apply (f_equal fst) in E. simpl in E. rewrite <- E.
    apply finish_sleepers; [|exact Hs]. intros _ _. exact (Hs _ _ Ht).
Qed.

Lemma run_sleepers sched s s' evs :
  run s sched = Some (s', evs) -> sleepers_blocking s -> sleepers_blocking s'.
Proof.
  revert s s' evs. induction sched as [|[t a] sched IH]; intros s s' evs; simpl.
  - intros [= <- <-]. auto.
  - destruct (exec s t a) as [[s1 ev]|] eqn:E; [|discriminate].
    destruct (run s1 sched) as [[s2 evs']|] eqn:R; [|discriminate].
    intros [= <- <-] Hs. apply (IH _ _ _ R). exact (exec_sleepers _ _ _ _ _ E Hs).
Qed.

Lemma boot_sleepers cap : sleepers_blocking (@boot T cap).
Proof. intros t c. unfold boot. simpl. rewrite lookup_empty. discriminate. Qed.

(** A blocking call woken on a closed queue returns [Destroyed]. *)
Lemma resume_closed_returns q c :
  _is_valid q = false -> is_blocking c = true ->
  resume q c no_timeout = Some (ret_error FifoError.Destroyed None, q, []).
Proof.
  intros Hv Hc. destruct c; try discriminate; crit; try reflexivity; congruence.
Qed.


End Sleepers.



(** ** Wake-ups *)

(** A wake-up that finds nothing changed changes nothing: when a thread
    asleep in [push] is woken while the queue is still open and full, or a
    thread asleep in [pop] or the timed [pop] is woken (not by the
    deadline) while the queue is still open and empty, the call goes back to
    sleep on the same condition variable and the whole system is as it
    was. *)
Theorem spurious_wakeup_changes_nothing {T : Type} (s : System T) (t : nat) :
  (forall v,
      sleeping s !! t = Some (call_push v) ->
      _is_valid (queue s) = true -> is_full (queue s) = true ->
      exec s t (Wakeup no_timeout)
      = Some (s, mkEvent t (call_push v) (sleeps _c_push_blockin_on) [])) /\
  (forall c,
      c = call_pop \/ c = call_pop_timeout ->
      sleeping s !! t = Some c ->
      _is_valid (queue s) = true -> _storage (queue s) = [] ->
      exec s t (Wakeup no_timeout)
      = Some (s, mkEvent t c (sleeps _c_pop_blocking_on) [])).
Proof.
  destruct s as [q sl]. simpl. split.
  - intros v Ht Hv Hf. unfold exec. simpl. rewrite Ht. simpl.
    unfold push_resume, push_while. rewrite Hv, Hf. simpl.
    now rewrite (insert_id _ _ _ Ht).
  - intros c [-> | ->] Ht Hv Hd; unfold exec; simpl; rewrite Ht; simpl;
      unfold pop_resume, pop, pop_timeout; rewrite Hv, Hd; simpl;
      now rewrite (insert_id _ _ _ Ht).
Qed.

Lemma spurious_wakeup_changes_nothing_witness :
  exec (mkSystem (mkFifoQueue 1 [1] true) {[ 1%nat := call_push 9 ]}) 1%nat
    (Wakeup no_timeout)
  = Some (mkSystem (mkFifoQueue 1 [1] true) {[ 1%nat := call_push 9 ]},
          mkEvent 1%nat (call_push 9) (sleeps _c_push_blockin_on) []).
Proof.
  apply (proj1 (spurious_wakeup_changes_nothing
                  (mkSystem (mkFifoQueue 1 [1] true) {[ 1%nat := call_push 9 ]})
                  1%nat) 9); reflexivity.
Defined.

(** Rendezvous.  A producer asleep in [push(v)] on an open, full queue of
    capacity at most [INT64_MAX] completes once another thread pops: the
    [pop] returns the first element, the woken [push] returns [OK], and [v]
    is the new last element.  A consumer asleep in [pop] on an open, empty
    queue with room completes once another thread pushes [v]: the woken
    [pop] returns [OK] with [v] and the queue is as it was. *)
Theorem rendezvous {T : Type} (s : System T) (t0 t1 : nat) (v : T) :
  t0 <> t1 -> sleeping s !! t0 = None -> _is_valid (queue s) = true ->
  (forall x d,
      sleeping s !! t1 = Some (call_push v) ->
      _storage (queue s) = x :: d ->
      deque_size (x :: d) = max_size (queue s) ->
      max_size (queue s) <= INT64_MAX ->
      run s [(t0, Invoke call_pop); (t1, Wakeup no_timeout)]
      = Some (mkSystem (set_storage (queue s) (d ++ [v]))
                (delete t1 (sleeping s)),
              [mkEvent t0 call_pop (ret_error FifoError.OK (Some x))
                 [notify_one _c_push_blockin_on];
               mkEvent t1 (call_push v) (ret_error FifoError.OK None)
                 [notify_one _c_pop_blocking_on]])) /\
  (sleeping s !! t1 = Some call_pop ->
   _storage (queue s) = [] -> is_full (queue s) = false ->
   run s [(t0, Invoke (call_push v)); (t1, Wakeup no_timeout)]
   = Some (mkSystem (queue s) (delete t1 (sleeping s)),
           [mkEvent t0 (call_push v) (ret_error FifoError.OK None)
              [notify_one _c_pop_blocking_on];
            mkEvent t1 call_pop (ret_error FifoError.OK (Some v))
              [notify_one _c_push_blockin_on]])).
Proof.
  destruct s as [[m st b] sl]. simpl. intros Hne Ht0 ->. split.
  - intros x d Ht1 -> Hfull Hmax.
    unfold run, exec. simpl. rewrite Ht0. simpl.
    rewrite (delete_id _ _ Ht0), Ht1. simpl.
    unfold push_resume, push_while, is_full. simpl.
    assert (Hroom : (to_uint64 m <=? deque_size d) = false).
    { apply Z.leb_gt. unfold deque_size, INT64_MAX in *. simpl in Hfull.
      rewrite to_uint64_small; lia. }
    rewrite Hroom. reflexivity.
  - intros Ht1 -> Hroom.
    unfold run, exec. simpl. rewrite Ht0. simpl.
    unfold push, push_while. simpl. rewrite Hroom. simpl.
    rewrite (delete_id _ _ Ht0), Ht1. reflexivity.
Qed.

Lemma rendezvous_witness :
  option_map (fun r => (map ev_response r.2, _storage (queue r.1)))
    (run (mkSystem (mkFifoQueue 2 [1; 2] true) {[ 1%nat := call_push 7 ]})
       [(0%nat, Invoke call_pop); (1%nat, Wakeup no_timeout)])
  = Some ([ret_error FifoError.OK (Some 1); ret_error FifoError.OK None],
          [2; 7]).
Proof.
  rewrite (proj1 (rendezvous
                    (mkSystem (mkFifoQueue 2 [1; 2] true)
                       {[ 1%nat := call_push 7 ]})
                    0%nat 1%nat 7 ltac:(discriminate) eq_refl eq_refl)
             1 [2] eq_refl eq_refl eq_refl ltac:(discriminate)).
  reflexivity.
Defined.

(** ** Where the elements go *)

Section Accounting.
Context {T : Type}.
Implicit Types (q : FifoQueue T) (c : Call T) (s : System T) (d : list T).

Lemma erase_if_sublist (f : T -> bool) d : deque_erase_if f d `sublist_of` d.
Proof.
  unfold deque_erase_if. induction d as [|x d IH]; simpl; [constructor|].
  destruct (f x); simpl; [now apply sublist_cons|now apply sublist_skip].
Qed.

Lemma find_erase_sublist (f : T -> bool) d x r :
  find_erase f d = Some (x, r) -> r `sublist_of` d /\ x :: r ≡ₚ d.
Proof.
  intros H. apply find_erase_Some in H as (d1 & d2 & -> & -> & _ & _). split.
  - apply sublist_app; [reflexivity|]. now apply sublist_cons.
  - apply Permutation_middle.
Qed.

(** One critical section: the storage it leaves is the storage it found
    plus what it appended, with elements taken out and none moved; what it
    hands out and what it leaves come from what it found and what it
    appended; and unless it is [erase_if], nothing else disappears. *)
Lemma enter_accounting q t c :
  _storage (enter q c).1.2
    `sublist_of` _storage q ++ pushed_value (mkEvent t c (enter q c).1.1 (enter q c).2) /\
  (delivered_value (mkEvent t c (enter q c).1.1 (enter q c).2)
     ++ _storage (enter q c).1.2
   ⊆+ _storage q ++ pushed_value (mkEvent t c (enter q c).1.1 (enter q c).2)) /\
  (is_erase_if c = false ->
   delivered_value (mkEvent t c (enter q c).1.1 (enter q c).2)
     ++ _storage (enter q c).1.2
   ≡ₚ _storage q ++ pushed_value (mkEvent t c (enter q c).1.1 (enter q c).2)).
Proof.
  destruct c; crit; simpl; rewrite ?app_nil_r;
    try (repeat split; intros; reflexivity);
    try (destruct (_storage q) as [|x d]; [discriminate|]; simpl;
         repeat split; intros; try reflexivity; now apply sublist_cons).
  - split; [apply erase_if_sublist|].
    split; [apply sublist_submseteq, erase_if_sublist|discriminate].
  - match goal with H : find_erase _ _ = Some _ |- _ =>
      apply find_erase_sublist in H as [Hsub Hperm] end.
    split; [exact Hsub|]. split; [now apply Permutation_submseteq|].
    intros _. exact Hperm.
Qed.

Lemma resume_accounting q t c st out :
  resume q c st = Some out ->
  _storage out.1.2
    `sublist_of` _storage q ++ pushed_value (mkEvent t c out.1.1 out.2) /\
  delivered_value (mkEvent t c out.1.1 out.2) ++ _storage out.1.2
  ≡ₚ _storage q ++ pushed_value (mkEvent t c out.1.1 out.2).
Proof.
  destruct c, st; crit; intros [= <-]; simpl; rewrite ?app_nil_r;
    try (split; reflexivity);
    destruct (_storage q) as [|x d]; try discriminate; simpl;
    split; try reflexivity; now apply sublist_cons.
Qed.

Lemma exec_accounting s t a s' ev :
  exec s t a = Some (s', ev) ->
  _storage (queue s') `sublist_of` _storage (queue s) ++ pushed_value ev /\
  (delivered_value ev ++ _storage (queue s')
   ⊆+ _storage (queue s) ++ pushed_value ev) /\
  (action_erases (t, a) = false ->
   delivered_value ev ++ _storage (queue s')
   ≡ₚ _storage (queue s) ++ pushed_value ev).
Proof.
  intros E.
  apply exec_inv in E as (c & out & [[-> ->]|(st & -> & Hr)] & -> & ->).
  - apply enter_accounting.
  - destruct (resume_accounting _ t _ _ _ Hr) as [Hsub Hperm].
    split; [exact Hsub|]. split; [now apply Permutation_submseteq|].
    intros _. exact Hperm.
Qed.

Lemma run_accounting sched s s' evs :
  run s sched = Some (s', evs) ->
  _storage (queue s') `sublist_of` _storage (queue s) ++ pushed evs /\
  (delivered evs ++ _storage (queue s') ⊆+ _storage (queue s) ++ pushed evs) /\
  (forallb (fun a => negb (action_erases a)) sched = true ->
   delivered evs ++ _storage (queue s') ≡ₚ _storage (queue s) ++ pushed evs).
Proof.
  unfold pushed, delivered. revert s s' evs.
  induction sched as [|[t a] sched IH]; intros s s' evs; simpl.
  - intros [= <- <-]. simpl. rewrite app_nil_r.
    repeat split; intros; reflexivity.
  - destruct (exec s t a) as [[s1 ev]|] eqn:E; [|discriminate].
    destruct (run s1 sched) as [[s2 evs']|] eqn:R; [|discriminate].
    intros [= <- <-]. simpl.
    destruct (exec_accounting _ _ _ _ _ E) as (Hsub1 & Hin1 & Hperm1).
    destruct (IH _ _ _ R) as (Hsub & Hin & Hperm).
    rewrite !app_assoc. split; [|split].
    + etransitivity; [exact Hsub|]. now apply sublist_app.
    + rewrite <- (app_assoc (delivered_value ev)).
      etransitivity; [apply submseteq_skips_l, Hin|].
      rewrite app_assoc. now apply submseteq_skips_r.
    + intros Hne. apply andb_true_iff in Hne as [Ha Hne].
      apply negb_true_iff in Ha.
      rewrite <- (app_assoc (delivered_value ev)).
      rewrite (Hperm Hne), app_assoc, (Hperm1 Ha). reflexivity.
Qed.
End Accounting.

(** Nothing is ever reordered: after any execution, with any calls
    ([get] and [erase_if] included) by any threads, the storage is the
    storage at the start followed by the successfully pushed values in the
    order of their appends, with some elements taken out and the others in
    their places. *)
Theorem storage_keeps_order {T : Type} (s s' : System T)
    (sched : list (nat * Action T)) (evs : list (Event T)) :
  run s sched = Some (s', evs) ->
  _storage (queue s') `sublist_of` _storage (queue s) ++ pushed evs.
Proof. intros R. exact (proj1 (run_accounting _ _ _ _ R)). Qed.

Lemma storage_keeps_order_witness :
  exists s evs,
    run (mkSystem FifoQueue_default ∅) get_test = Some (s, evs) /\
    _storage (queue s) = [1; 2; 4; 5] /\ pushed evs = [1; 2; 3; 4; 5] /\
    _storage (queue s)
      `sublist_of` _storage (queue (mkSystem (@FifoQueue_default Z) ∅))
                   ++ pushed evs.
Proof.
  eexists _, _. split; [vm_compute; reflexivity|].
  split; [reflexivity|]. split; [reflexivity|].
  apply (storage_keeps_order (mkSystem FifoQueue_default ∅) _ get_test _).
  vm_compute. reflexivity.
Defined.

(** Nothing is duplicated or invented, and only [erase_if] discards: after
    any execution, the values handed out by [pop], [try_pop], the timed
    [pop] and [get], together with the values left in storage, are among
    the values in storage at the start and the successfully pushed ones,
    each at most as often; and when the execution calls no [erase_if] they
    are exactly those values, each as often. *)
Theorem elements_accounted_for {T : Type} (s s' : System T)
    (sched : list (nat * Action T)) (evs : list (Event T)) :
  run s sched = Some (s', evs) ->
  (delivered evs ++ _storage (queue s') ⊆+ _storage (queue s) ++ pushed evs) /\
  (forallb (fun a => negb (action_erases a)) sched = true ->
   delivered evs ++ _storage (queue s') ≡ₚ _storage (queue s) ++ pushed evs).
Proof. intros R. exact (proj2 (run_accounting _ _ _ _ R)). Qed.

Lemma elements_accounted_for_witness :
  exists s evs,
    run (mkSystem FifoQueue_default ∅) get_test = Some (s, evs) /\
    delivered evs = [3] /\ _storage (queue s) = [1; 2; 4; 5] /\
    delivered evs ++ _storage (queue s)
    ≡ₚ _storage (queue (mkSystem (@FifoQueue_default Z) ∅)) ++ pushed evs.
Proof.
  eexists _, _. split; [vm_compute; reflexivity|].
  split; [reflexivity|]. split; [reflexivity|].
  apply (elements_accounted_for (mkSystem FifoQueue_default ∅) _ get_test _);
    [vm_compute|]; reflexivity.
Defined.

(** ** What is left in a closed queue *)

Section Frozen.
Context {T : Type}.
Implicit Types (q : FifoQueue T) (c : Call T) (s : System T).

Lemma enter_closed_frozen q t c :
  _is_valid q = false ->
  pushed_value (mkEvent t c (enter q c).1.1 (enter q c).2) = [] /\
  delivered_value (mkEvent t c (enter q c).1.1 (enter q c).2) = [] /\
  (is_erase_if c = false -> (enter q c).1.2 = q).
Proof.
  intros Hv. destruct c; crit; simpl; try congruence;
    repeat split; try discriminate.
  destruct q as [m d b]. simpl in *. now subst.
Qed.

Lemma resume_closed_frozen q t c st out :
  _is_valid q = false -> resume q c st = Some out ->
  pushed_value (mkEvent t c out.1.1 out.2) = [] /\
  delivered_value (mkEvent t c out.1.1 out.2) = [] /\
  out.1.2 = q.
Proof.
  intros Hv. destruct c, st; crit; intros [= <-]; simpl; try congruence;
    repeat split.
Qed.

Lemma run_closed_frozen sched s s' evs :
  _is_valid (queue s) = false ->
  run s sched = Some (s', evs) ->
  pushed evs = [] /\ delivered evs = [] /\
  (forallb (fun a => negb (action_erases a)) sched = true -> queue s' = queue s).
Proof.
  unfold pushed, delivered. revert s s' evs.
  induction sched as [|[t a] sched IH]; intros s s' evs Hv; simpl.
  - intros [= <- <-]. repeat split.
  - destruct (exec s t a) as [[s1 ev]|] eqn:E; [|discriminate].
    destruct (run s1 sched) as [[s2 evs']|] eqn:R; [|discriminate].
    intros [= <- <-]. simpl.
    assert (Hv1 : _is_valid (queue s1) = false).
    { destruct (exec_queue _ _ _ _ _ E) as [[c ->]|(c & st & out & Hr & ->)].
      - now apply enter_closed.
      - now apply (resume_closed _ _ _ _ Hr). }
    destruct (IH _ _ _ Hv1 R) as (Hp & Hd & Hq).
    apply exec_inv in E as (c & out & [[-> ->]|(st & -> & Hr)] & -> & Hq1).
    + destruct (enter_closed_frozen (queue s) t c Hv) as (Hp1 & Hd1 & Hsame).
      rewrite Hp1, Hd1, Hp, Hd. repeat split.
      intros Hne. apply andb_true_iff in Hne as [Ha Hne].
      apply negb_true_iff in Ha. rewrite (Hq Hne), Hq1. now apply Hsame.
    + destruct (resume_closed_frozen (queue s) t c st out Hv Hr)
        as (Hp1 & Hd1 & Hsame).
      rewrite Hp1, Hd1, Hp, Hd. repeat split.
      intros Hne. apply andb_true_iff in Hne as [_ Hne].
      now rewrite (Hq Hne), Hq1.
Qed.
End Frozen.

(** The elements left in a closed queue are out of reach: in every
    execution that starts from a closed queue no push appends, no [pop],
    [try_pop], timed [pop] or [get] hands out a value, the storage can only
    lose elements (to [erase_if]), and when [erase_if] is not called the
    queue at the end is the queue at the start. *)
Theorem closed_queue_hands_out_nothing {T : Type} (s s' : System T)
    (sched : list (nat * Action T)) (evs : list (Event T)) :
  _is_valid (queue s) = false ->
  run s sched = Some (s', evs) ->
  pushed evs = [] /\ delivered evs = [] /\
  _storage (queue s') `sublist_of` _storage (queue s) /\
  (forallb (fun a => negb (action_erases a)) sched = true -> queue s' = queue s).
Proof.
  intros Hv R. destruct (run_closed_frozen _ _ _ _ Hv R) as (Hp & Hd & Hq).
  split; [exact Hp|]. split; [exact Hd|]. split; [|exact Hq].
  pose proof (proj1 (run_accounting _ _ _ _ R)) as Hsub.
  now rewrite Hp, app_nil_r in Hsub.
Qed.

Lemma closed_queue_hands_out_nothing_witness :
  exists s evs,
    run (mkSystem (mkFifoQueue 2 [1] false) ∅) after_close_test = Some (s, evs) /\
    delivered evs = [] /\ queue s = mkFifoQueue 2 [1] false.
Proof.
  eexists _, _. split; [vm_compute; reflexivity|].
  match goal with
  | |- delivered ?evs = [] /\ queue ?s = _ =>
      destruct (closed_queue_hands_out_nothing
                  (mkSystem (mkFifoQueue 2 [1] false) ∅) s after_close_test evs
                  eq_refl)
        as (_ & Hd & _ & Hq); [vm_compute; reflexivity|]
  end.
  split; [exact Hd|exact (Hq eq_refl)].
Defined.

(** ** [erase_if] and [get] together *)

Section Selective.
Context {T : Type}.
Implicit Types (q : FifoQueue T) (f g : T -> bool) (d : list T).

Lemma deque_erase_if_fuse f g d :
  deque_erase_if g (deque_erase_if f d) = deque_erase_if (fun x => f x || g x) d.
Proof.
  unfold deque_erase_if. induction d as [|x d IH]; simpl; [reflexivity|].
  destruct (f x) eqn:Hf; simpl; [exact IH|].
  destruct (g x); simpl; [exact IH|]. now rewrite IH.
Qed.

Lemma deque_erase_if_ext f g d :
  (forall x, In x d -> f x = g x) -> deque_erase_if f d = deque_erase_if g d.
Proof.
  unfold deque_erase_if. intros H. apply List.filter_ext_in.
  intros x Hx. now rewrite (H x Hx).
Qed.

Lemma deque_erase_if_none f d :
  Forall (fun x => f x = false) d -> deque_erase_if f d = d.
Proof.
  unfold deque_erase_if. induction 1 as [|x d Hx _ IH]; simpl; [reflexivity|].
  rewrite Hx. simpl. now rewrite IH.
Qed.

Lemma find_erase_In f d x r :
  find_erase f d = Some (x, r) -> f x = true /\ In x d.
Proof.
  intros H. apply find_erase_Some in H as (d1 & d2 & -> & _ & Hx & _).
  split; [exact Hx|]. apply in_or_app. right. now left.
Qed.

Lemma find_erase_Exists f d :
  (exists x r, find_erase f d = Some (x, r)) <-> Exists (fun x => f x = true) d.
Proof.
  split.
  - intros (x & r & H). apply find_erase_In in H as [Hx Hin].
    apply List.Exists_exists. eauto.
  - intros H. destruct (find_erase f d) as [[x r]|] eqn:E; [eauto|].
    apply find_erase_None in E. apply List.Exists_exists in H as (x & Hin & Hx).
    rewrite List.Forall_forall in E. rewrite (E x Hin) in Hx. discriminate.
Qed.
End Selective.

(** [erase_if] composes as set difference does: erasing with [f] and then
    with [g] is erasing with "[f] or [g]", in either order; erasing twice
    with the same predicate is erasing once; erasing with a predicate no
    element satisfies changes nothing; and after [erase_if] with [f], [get]
    with [f] on the open queue finds nothing and returns [NotFound]. *)
Theorem erase_if_composes {T : Type} (q : FifoQueue T) (f g : T -> bool) :
  (erase_if (erase_if q f).1 g).1 = (erase_if q (fun x => f x || g x)).1 /\
  (erase_if (erase_if q f).1 g).1 = (erase_if (erase_if q g).1 f).1 /\
  (erase_if (erase_if q f).1 f).1 = (erase_if q f).1 /\
  (Forall (fun x => f x = false) (_storage q) -> (erase_if q f).1 = q) /\
  (_is_valid q = true ->
   (get (erase_if q f).1 f).1 = ((FifoError.NotFound, None), (erase_if q f).1)).
Proof.
  unfold erase_if, set_storage. simpl.
  split; [now rewrite deque_erase_if_fuse|].
  split.
  { rewrite !deque_erase_if_fuse. f_equal.
    apply deque_erase_if_ext. intros x _. apply orb_comm. }
  split.
  { rewrite deque_erase_if_fuse. f_equal.
    apply deque_erase_if_ext. intros x _. apply orb_diag. }
  split.
  { intros H. rewrite (deque_erase_if_none f _ H). now destruct q. }
  intros Hv. unfold get. simpl. rewrite Hv. simpl.
  assert (E : find_erase f (deque_erase_if f (_storage q)) = None).
  { apply find_erase_None. apply (erase_if_survivors f (_storage q)). }
  now rewrite E.
Qed.

Lemma erase_if_composes_witness :
  (erase_if (mkFifoQueue 9 [1; 2; 3; 4] true) (fun x => x <? 3)).1
  = mkFifoQueue 9 [3; 4] true /\
  (erase_if (mkFifoQueue 9 [3; 4] true) (fun x => x <? 3)).1
  = mkFifoQueue 9 [3; 4] true /\
  (get (mkFifoQueue 9 [3; 4] true) (fun x => x <? 3)).1
  = ((FifoError.NotFound, None), mkFifoQueue 9 [3; 4] true).
Proof.
  split; [reflexivity|]. split.
  - apply (proj1 (proj2 (proj2 (proj2
             (erase_if_composes (mkFifoQueue 9 [3; 4] true)
                (fun x => x <? 3) (fun x => x <? 3)))))).
    repeat constructor.
  - exact (proj2 (proj2 (proj2 (proj2
             (erase_if_composes (mkFifoQueue 9 [1; 2; 3; 4] true)
                (fun x => x <? 3) (fun x => x <? 3))))) eq_refl).
Defined.

(** What [get] returns on an open queue tells whether a match existed:
    [OK] exactly when some element satisfies the predicate, [NotFound]
    exactly when none does.  A value handed out satisfies the predicate and
    was in storage, and putting it back with what is left gives the
    elements that were there, so exactly one element has gone.  With the
    predicate that accepts everything, [get] on a non-empty queue takes the
    same element and leaves the same queue as [try_pop]. *)
Theorem get_outcome {T : Type} (q : FifoQueue T) (f : T -> bool) :
  _is_valid q = true ->
  ((get q f).1.1.1 = FifoError.OK <-> Exists (fun x => f x = true) (_storage q)) /\
  ((get q f).1.1.1 = FifoError.NotFound <->
   Forall (fun x => f x = false) (_storage q)) /\
  (forall x, (get q f).1.1.2 = Some x ->
             f x = true /\ In x (_storage q) /\
             x :: _storage (get q f).1.2 ≡ₚ _storage q /\
             deque_size (_storage (get q f).1.2) = deque_size (_storage q) - 1) /\
  (_storage q <> [] -> (get q (fun _ => true)).1 = (try_pop q).1).
Proof.
  intros Hv. unfold get, try_pop. rewrite Hv. simpl.
  split; [|split; [|split]].
  - rewrite <- find_erase_Exists.
    destruct (find_erase f (_storage q)) as [[x r]|]; simpl.
    + split; eauto.
    + split; [discriminate|]. intros (x & r & H). discriminate.
  - rewrite <- find_erase_None.
    destruct (find_erase f (_storage q)) as [[x r]|]; simpl;
      split; congruence.
  - intros x.
    destruct (find_erase f (_storage q)) as [[y r]|] eqn:E; simpl;
      [|discriminate].
    intros [= ->]. destruct (find_erase_In _ _ _ _ E) as [Hx Hin].
    destruct (find_erase_sublist _ _ _ _ E) as [_ Hperm].
    pose proof (find_erase_size _ _ _ _ E). repeat split; auto. lia.
  - destruct (_storage q) as [|x d]; [congruence|]. reflexivity.
Qed.

Lemma get_outcome_witness :
  (get (mkFifoQueue 9 [1; 2; 3] true) Z.even).1.1 = (FifoError.OK, Some 2) /\
  Exists (fun x => Z.even x = true) [1; 2; 3].
Proof.
  split; [reflexivity|].
  apply (proj1 (proj1 (get_outcome (mkFifoQueue 9 [1; 2; 3] true) Z.even
                         eq_refl))).
  reflexivity.
Defined.

(** ** Shutting down *)

Section Shutdown.
Context {T : Type}.
Implicit Types (q : FifoQueue T) (c : Call T).

(** On a closed queue the sleepers can be woken one after the other; each
    returns [Destroyed] and the queue stays as it is. *)
Lemma wake_all q (m : gmap nat (Call T)) :
  _is_valid q = false ->
  (forall t c, m !! t = Some c -> is_blocking c = true) ->
  exists sched evs,
    run (mkSystem q m) sched = Some (mkSystem q ∅, evs) /\
    Forall (fun a => exists t, a = (t, Wakeup no_timeout)) sched /\
    Forall (fun ev => ev_response ev = ret_error FifoError.Destroyed None /\
                      ev_signals ev = []) evs /\
    length evs = base.size m.
Proof.
  intros Hv. induction m as [|t c m Ht IH] using map_ind; intros Hm.
  - exists [], []. repeat split; constructor.
  - destruct IH as (sched & evs & R & Hsched & Hevs & Hlen).
    { intros t' c' H'. apply (Hm t' c').
      rewrite lookup_insert_ne; [exact H'|]. intros ->. congruence. }
    exists ((t, Wakeup no_timeout) :: sched),
      (mkEvent t c (ret_error FifoError.Destroyed None) [] :: evs).
    split; [|split; [|split]].
    + simpl. unfold exec. simpl. rewrite lookup_insert_eq.
      rewrite (resume_closed_returns q c Hv)
        by (apply (Hm t c), lookup_insert_eq).
      simpl. rewrite (delete_insert_id _ _ _ Ht), R. reflexivity.
    + constructor; [now exists t|exact Hsched].
    + constructor; [split; reflexivity|exact Hevs].
    + simpl. rewrite Hlen. now rewrite map_size_insert_None.
Qed.
End Shutdown.

(** After [close()] every suspended thread can return: from every closed
    state reached from a constructed queue there is a schedule of wake-ups,
    one for each sleeping thread, after which no thread is asleep; each of
    the woken calls returns [Destroyed], notifies nobody, and the queue is
    as [close()] left it. *)
Theorem closed_queue_quiesces {T : Type} (cap : Z)
    (sched : list (nat * Action T)) (s : System T) (evs : list (Event T)) :
  run (boot cap) sched = Some (s, evs) ->
  _is_valid (queue s) = false ->
  exists wakes evs',
    run s wakes = Some (mkSystem (queue s) ∅, evs') /\
    Forall (fun a => exists t, a = (t, Wakeup no_timeout)) wakes /\
    Forall (fun ev => ev_response ev = ret_error FifoError.Destroyed None /\
                      ev_signals ev = []) evs' /\
    length evs' = base.size (sleeping s).
Proof.
  intros R Hv.
  pose proof (run_sleepers _ _ _ _ R (boot_sleepers cap)) as Hs.
  destruct s as [q m]. simpl in *. now apply wake_all.
Qed.

Lemma closed_queue_quiesces_witness :
  exists s evs wakes evs',
    run (boot 1) close_with_sleeper = Some (s, evs) /\
    base.size (sleeping s) = 1%nat /\
    run s wakes = Some (mkSystem (queue s) ∅, evs') /\
    length evs' = 1%nat.
Proof.
  destruct (run (boot 1) close_with_sleeper) as [[s evs]|] eqn:R;
    [|discriminate].
  assert (Hv : _is_valid (queue s) = false) by (injection R as <- <-; reflexivity).
  assert (Hn : base.size (sleeping s) = 1%nat) by (injection R as <- <-; reflexivity).
  destruct (closed_queue_quiesces 1 close_with_sleeper s evs R Hv)
    as (wakes & evs' & Hrun & _ & _ & Hlen).
  exists s, evs, wakes, evs'. split; [reflexivity|].
  split; [exact Hn|]. split; [exact Hrun|]. now rewrite Hlen.
Defined.

(** ** The capacity as the code reads it *)

(** Whatever the capacity a queue was constructed with (zero and negative
    values included), after any execution the capacity is unchanged and
    the storage holds at most as many elements as the capacity converted
    to [size_t], which is what [push] and [try_push] compare with; a queue
    constructed with capacity 0 therefore never holds an element. *)
Theorem storage_within_converted_capacity {T : Type} (cap : Z)
    (sched : list (nat * Action T)) (s : System T) (evs : list (Event T)) :
  run (boot cap) sched = Some (s, evs) ->
  max_size (queue s) = cap /\
  deque_size (_storage (queue s)) <= to_uint64 cap /\
  (cap = 0 -> _storage (queue s) = []).
Proof.
  intros R.
  assert (Hm : max_size (queue s) = cap) by exact (run_max_size _ _ _ _ R).
  assert (Hw : within_capacity (queue s)).
  { apply (run_within_capacity _ _ _ _ R). unfold within_capacity, boot. simpl.
    unfold deque_size. simpl. apply Z.mod_pos_bound. lia. }
  unfold within_capacity in Hw. rewrite Hm in Hw.
  split; [exact Hm|]. split; [exact Hw|].
  intros ->. unfold deque_size in Hw. change (to_uint64 0) with 0 in Hw.
  destruct (_storage (queue s)); [reflexivity|]. simpl in Hw. lia.
Qed.

Lemma storage_within_converted_capacity_witness :
  exists s evs,
    run (boot 0) [(0%nat, Invoke (call_try_push 1)); (1%nat, Invoke (call_push 2))]
    = Some (s, evs) /\
    map ev_response evs
    = [ret_error FifoError.Full None; sleeps _c_push_blockin_on] /\
    _storage (queue s) = [].
Proof.
  destruct (run (boot 0) [(0%nat, Invoke (call_try_push 1));
                          (1%nat, Invoke (call_push 2))])
    as [[s evs]|] eqn:R; [|discriminate].
  exists s, evs. split; [reflexivity|].
  split; [injection R as <- <-; reflexivity|].
  exact (proj2 (proj2 (storage_within_converted_capacity 0 _ s evs R)) eq_refl).
Defined.
